(** * SCoT: statistical evaluation of connectivity

    A shallow embedding of [scot/connectivity_statistics.py] and the
    properties its specification states about it.

    Conventions of the embedding:
    - Python 3 semantics ([/] is true division, [int()] truncates).
    - Real-valued data are exact rationals ([Q]); a numpy float is a rational,
      an infinity or not-a-number.  Rounding is not modelled.
    - An [ndarray] is its shape together with its elements in row-major order.
    - Exceptions are the [Err] constructor of [result]; the collaborators of
      the module (VAR model, connectivity measures, phase randomisation, the
      random generator, [np.argsort]) are interfaces, given as type classes. *)

From Stdlib Require Import QArith.
From stdpp Require Import gmap strings list sorting.

Local Open Scope Z_scope.

(** ** Numpy floats *)

Module Float.

Inductive float : Type :=
| NaN
| NegInf
| Fin (q : Q)
| PosInf.

Definition isnan (x : float) : bool :=
  match x with NaN => true | _ => false end.

(** [x <= y]; every comparison with not-a-number is false. *)
Definition le (x y : float) : bool :=
  match x, y with
  | NaN, _ | _, NaN => false
  | NegInf, _ => true
  | _, PosInf => true
  | Fin a, Fin b => Qle_bool a b
  | Fin _, NegInf => false
  | PosInf, _ => false
  end.

(** The order [np.sort] and [np.argsort] arrange values in: ascending, every
    not-a-number after every other value. *)
Definition sort_le (x y : float) : bool := isnan y || le x y.

(** [q / m] for a finite float [q] and an integer [m] of numpy type: a zero
    divisor gives an infinity or not-a-number (and a warning), no exception. *)
Definition true_divide (q : Q) (m : Z) : float :=
  if m =? 0 then
    match (0 ?= q)%Q with
    | Lt => PosInf
    | Gt => NegInf
    | Eq => NaN
    end
  else Fin (q / inject_Z m).

(** [a * x] for a finite float [a]. *)
Definition mul (a : Q) (x : float) : float :=
  match x with
  | NaN => NaN
  | Fin q => Fin (a * q)
  | PosInf =>
      match (0 ?= a)%Q with Lt => PosInf | Gt => NegInf | Eq => NaN end
  | NegInf =>
      match (0 ?= a)%Q with Lt => NegInf | Gt => PosInf | Eq => NaN end
  end.

End Float.

Import Float.

(** ** Numpy arrays *)

Record ndarray (A : Type) : Type := NdArray {
  shape : list nat;
  flat : list A;
}.
Arguments NdArray {A} _ _.
Arguments shape {A} _.
Arguments flat {A} _.

(** [np.arange(lo, hi)] *)
Definition arange (lo hi : Z) : list Z :=
  (λ r : nat, lo + Z.of_nat r) <$> seq 0 (Z.to_nat (hi - lo)).

(** [np.sum] of a boolean array counts its true entries. *)
Definition np_sum (mask : list bool) : Z :=
  Z.of_nat (length (filter (λ b : bool, b = true) mask)).

(** [np.empty(n, int)]: [n] cells of unspecified content.  The content is
    taken as zero; [flat_assign_init] shows the choice is never observed. *)
Definition np_empty (n : nat) : list Z := replicate n 0.

(** [dst.flat[idx] = src]: cell [idx[r]] receives [src[r]], in order. *)
Fixpoint flat_assign (dst : list Z) (idx : list nat) (src : list Z) : list Z :=
  match idx, src with
  | x :: idx', v :: src' => flat_assign (<[x := v]> dst) idx' src'
  | _, _ => dst
  end.

(** [arr[mask]] for a boolean [mask] of [arr]'s shape. *)
Fixpoint bool_index {A} (arr : list A) (mask : list bool) : list A :=
  match arr, mask with
  | x :: arr', b :: mask' =>
      if b then x :: bool_index arr' mask' else bool_index arr' mask'
  | _, _ => []
  end.

(** [np.max]; it raises on an empty array, which its one call site excludes
    (see [bool_index_nonempty]). *)
Definition np_max (l : list Z) : Z :=
  match l with
  | [] => 0
  | x :: l' => foldl Z.max x l'
  end.

(** [np.argsort(p, axis=None)]: numpy's contract.  The result lists the flat
    indices of [p] so that the values read in that order ascend, not-a-number
    last.  The order among equal values is left to the sorting algorithm. *)
Class Argsort : Type := {
  argsort : list float → list nat;
  argsort_perm p : argsort p ≡ₚ seq 0 (length p);
  argsort_sorted p r1 r2 x1 x2 v1 v2 :
    (r1 ≤ r2)%nat →
    argsort p !! r1 = Some x1 → argsort p !! r2 = Some x2 →
    p !! x1 = Some v1 → p !! x2 = Some v2 →
    sort_le v1 v2 = true;
}.

(** ** [significance_fdr] *)

Section significance_fdr.
Context `{Argsort}.

(** The intermediate arrays of [significance_fdr], named as in the source. *)
Definition fdr_m (p : ndarray float) : Z :=
  Z.of_nat (length (argsort (flat p))) - np_sum (isnan <$> flat p).

Definition fdr_j (p : ndarray float) : list Z :=
  let i := argsort (flat p) in
  flat_assign (np_empty (length (flat p))) i
              (arange 1 (Z.of_nat (length i) + 1)).

Definition fdr_threshold (alpha : Q) (m : Z) (jx : Z) : float :=
  true_divide (alpha * inject_Z jx) m.

Definition fdr_mask (p : ndarray float) (alpha : Q) : list bool :=
  zip_with le (flat p) (fdr_threshold alpha (fdr_m p) <$> fdr_j p).

Definition significance_fdr (p : ndarray float) (alpha : Q) : ndarray bool :=
  let j := fdr_j p in
  let mask := fdr_mask p alpha in
  if np_sum mask =? 0 then NdArray (shape p) mask
  else
    (* find largest k so that p_k <= alpha*k/m *)
    let k := np_max (bool_index j mask) in
    (* reject all H_i for i = 0...k *)
    let s := (λ jx, jx <=? k) <$> j in
    NdArray (shape p) s.

End significance_fdr.

(** A sorting algorithm for [np.argsort]: merge sort on the values paired
    with their indices. *)
Definition by_value (a b : nat * float) : Prop := sort_le a.2 b.2 = true.

Global Instance by_value_dec a b : Decision (by_value a b).
Proof. unfold by_value. apply _. Defined.

Definition merge_argsort (p : list float) : list nat :=
  (merge_sort by_value (imap pair p)).*1.

(** ** Exceptions and effects *)

Inductive exception : Type :=
| ValueError
| IndexError
| KeyError
| ZeroDivisionError
| AssertionError
| Raised (what : string).   (* an exception raised inside a collaborator *)

Inductive result (A : Type) : Type :=
| Ok (a : A)
| Err (e : exception).
Arguments Ok {A} _.
Arguments Err {A} _.

Definition raises {A} (r : result A) : Prop := ∃ e, r = Err e.

(** A computation that reads and changes a state [W] and may raise; what it
    raises propagates to the caller. *)
Definition M (W A : Type) : Type := W → result (A * W).

Class Monad (T : Type → Type) : Type := {
  ret : ∀ {A}, A → T A;
  bind : ∀ {A B}, T A → (A → T B) → T B;
}.

Global Instance result_monad : Monad result := {|
  ret A := Ok;
  bind A B r f := match r with Ok a => f a | Err e => Err e end;
|}.

Global Instance M_monad {W} : Monad (M W) := {|
  ret A a := λ w, Ok (a, w);
  bind A B m f := λ w, match m w with Ok (a, w') => f a w' | Err e => Err e end;
|}.

(** [let*] sequences computations that may raise, [let!] computations that
    also change the state. *)
Notation "'let*' x := r 'in' k" := (@bind result _ _ _ r (λ x, k))
  (at level 10, x pattern, r at level 100, k at level 200).
Notation "'let!' x := r 'in' k" := (@bind (M _) _ _ _ r (λ x, k))
  (at level 10, x pattern, r at level 100, k at level 200).

Definition lift {W A} (r : result A) : M W A := λ w,
  match r with Ok a => Ok (a, w) | Err e => Err e end.

(** Reading an attribute of the state. *)
Definition read {W A} (f : W → A) : M W A := λ w, Ok (f w, w).

(** [for a in l: s = body(a, s)] *)
Fixpoint for_each `{Monad T} {A S} (l : list A) (body : A → S → T S) (s : S) : T S :=
  match l with
  | [] => ret s
  | a :: l' => bind (body a s) (for_each l' body)
  end.

(** [[f(a) for a in l]] *)
Fixpoint comprehension {A B} (f : A → result B) (l : list A) : result (list B) :=
  match l with
  | [] => Ok []
  | a :: l' => let* b := f a in let* bs := comprehension f l' in Ok (b :: bs)
  end.

(** [{k: value(k) for k in keys}], built in the order of [keys]. *)
Fixpoint dict_comprehension {V} (keys : list string) (value : string → result V)
    (d : gmap string V) : result (gmap string V) :=
  match keys with
  | [] => Ok d
  | k :: keys' => let* v := value k in dict_comprehension keys' value (<[k := v]> d)
  end.

(** ** Python numbers and sequences *)

(** [range(n)] *)
Definition range (n : Z) : list Z := seqZ 0 n.

(** [int(q)]: truncation towards zero. *)
Definition py_int (q : Q) : Z := Z.quot (Qnum q) (Z.pos (Qden q)).

(** [a / b] *)
Definition py_truediv (a b : Q) : result Q :=
  if Qeq_bool b 0 then Err ZeroDivisionError else Ok (a / b)%Q.

(** [a < b] *)
Definition Qlt_bool (a b : Q) : bool := negb (Qle_bool b a).

(** [l[i]], a negative [i] counting from the end. *)
Definition py_index {A} (l : list A) (i : Z) : result A :=
  let n := Z.of_nat (length l) in
  let i' := if i <? 0 then i + n else i in
  if (0 <=? i') && (i' <? n) then
    match l !! Z.to_nat i' with
    | Some a => Ok a
    | None => Err IndexError
    end
  else Err IndexError.

(** ** More of numpy *)

(** [np.array(l)] for a list of arrays: the arrays stacked along a new leading
    axis.  Arrays of different shapes raise (numpy 1.24 and later). *)
Definition np_array {A} (l : list (ndarray A)) : result (ndarray A) :=
  match l with
  | [] => Ok (NdArray [0%nat] [])
  | a :: l' =>
      if forallb (λ b, bool_decide (shape b = shape a)) l'
      then Ok (NdArray (length l :: shape a) (concat (flat <$> l)))
      else Err ValueError
  end.

(** [a[r]]: the slice of [a] at index [r] of its leading axis. *)
Definition slice {A} (a : ndarray A) (r : nat) : option (ndarray A) :=
  match shape a with
  | [] => None
  | n :: sh =>
      if decide (r < n)%nat then
        let size := foldr Nat.mul 1%nat sh in
        Some (NdArray sh (take size (drop (r * size) (flat a))))
      else None
  end.

(** [a.shape[0]] *)
Definition shape0 {A} (a : ndarray A) : result nat :=
  match shape a with
  | [] => Err IndexError
  | n :: _ => Ok n
  end.

(** [a.reshape((n, -1))]: numpy infers the second dimension, and raises when
    it cannot. *)
Definition reshape_rows {A} (a : ndarray A) (n : nat) : result (ndarray A) :=
  let size := length (flat a) in
  if decide (n = 0)%nat then Err ValueError
  else if decide (size `mod` n = 0)%nat then Ok (NdArray [n; size `div` n]%nat (flat a))
  else Err ValueError.

(** [a.reshape(sh)] *)
Definition reshape {A} (a : list A) (sh : list nat) : result (ndarray A) :=
  if decide (foldr Nat.mul 1%nat sh = length a) then Ok (NdArray sh a)
  else Err ValueError.

(** The number of columns of a two-dimensional array. *)
Definition ncols {A} (a : ndarray A) : nat :=
  match shape a with
  | [_; k] => k
  | _ => 0
  end.

(** [a[i, :]] for a two-dimensional [a]. *)
Definition row {A} (a : ndarray A) (i : Z) : result (list A) :=
  match shape a with
  | [n; k] =>
      let i' := if i <? 0 then i + Z.of_nat n else i in
      if (0 <=? i') && (i' <? Z.of_nat n)
      then Ok (take k (drop (Z.to_nat i' * k) (flat a)))
      else Err IndexError
  | _ => Err IndexError
  end.

(** [a[:, i]] for a two-dimensional [a] and [0 <= i] within range. *)
Definition column {A} (a : ndarray A) (i : nat) : list A :=
  match shape a with
  | [n; k] => omap (λ r : nat, flat a !! (r * k + i)%nat) (seq 0 n)
  | _ => []
  end.

(** Elementwise operation on two one-dimensional arrays, with numpy's
    broadcasting of a length-one operand. *)
Definition broadcast {A B C} (f : A → B → C) (x : list A) (y : list B) : result (list C) :=
  if decide (length x = length y) then Ok (zip_with f x y)
  else match x, y with
       | [a], _ => Ok (f a <$> y)
       | _, [b] => Ok ((λ a, f a b) <$> x)
       | _, _ => Err ValueError
       end.

(** An accumulator that starts as the Python integer [0] and becomes an array
    on its first [+=] with an array. *)
Inductive accumulator : Type :=
| Scalar (z : Z)
| Vector (l : list Z).

(** [s += c] for a boolean array [c].  On a Python integer this rebinds [s]
    to [s + c]; on an array it adds in place, so [c] must broadcast to the
    shape [s] already has. *)
Definition iadd (s : accumulator) (c : list bool) : result accumulator :=
  match s with
  | Scalar z => Ok (Vector ((λ b : bool, z + Z.b2z b) <$> c))
  | Vector l =>
      if decide (length l = length c)
      then Ok (Vector (zip_with (λ z (b : bool), z + Z.b2z b) l c))
      else match c with
           | [b] => Ok (Vector ((λ z, z + Z.b2z b) <$> l))
           | _ => Err ValueError
           end
  end.

(** [np.minimum(s1, s2) / d] *)
Definition minimum_divide (s1 s2 : accumulator) (d : Z) : result (list float) :=
  let as_list s := match s with Scalar z => [z] | Vector l => l end in
  let* m := broadcast Z.min (as_list s1) (as_list s2) in
  Ok ((λ z, true_divide (inject_Z z) d) <$> m).

(** [cartesian((x, y))]: every pair, the first component varying slowest. *)
Definition cartesian {A B} (x : list A) (y : list B) : list (A * B) := list_prod x y.

(** ** The data of the module *)

(** One trial: samples by channels. *)
Definition trial : Type := list (list Q).

(** Time series data, 2D or 3D for multiple trials.  A three-dimensional
    array [n_samples, n_channels, n_trials] is kept as the list of its
    trials. *)
Inductive dataset : Type :=
| Data2 (x : trial)
| Data3 (xs : list trial).

(** [np.atleast_3d(data)]: a single trial becomes a list of one trial. *)
Definition atleast_3d (data : dataset) : list trial :=
  match data with
  | Data2 x => [x]
  | Data3 xs => xs
  end.

(** [data[:, :, mask]] for a list or array [mask] of trial indices. *)
Definition take_trials (data : list trial) (mask : list Z) : result dataset :=
  let* trials := comprehension (py_index data) mask in Ok (Data3 trials).

(** Name(s) of the connectivity measure(s) to calculate: [{str, list of str}]. *)
Inductive measure_names : Type :=
| Name (s : string)
| Names (l : list string).

(** What [connectivity] returns: an array for one name, a dictionary from
    each name to its array for a list of names. *)
Inductive conn_result : Type :=
| CArray (a : ndarray Q)
| CDict (d : gmap string (ndarray Q)).

(** What the estimators return.  [EObjects] is the array of objects
    [np.array] builds from a list of dictionaries. *)
Inductive ensemble : Type :=
| EArray (a : ndarray Q)
| EObjects (l : list (gmap string (ndarray Q)))
| EDict (d : gmap string (ndarray Q)).

(** The collaborators of the module.  [world] holds what they change: the
    VAR model object [var] and the state of the random generator. *)
Class Collaborators : Type := {
  world : Type;
  coef : Type;
  rescov : Type;
  (* datatools.randomize_phase(data) *)
  randomize_phase : dataset → M world dataset;
  (* var.fit(data) *)
  var_fit : dataset → M world ();
  (* var.coef, var.rescov *)
  var_coef : world → coef;
  var_rescov : world → rescov;
  (* connectivity.connectivity(measure_names, coef, rescov, nfft) *)
  connectivity : measure_names → coef → rescov → Z → result conn_result;
  (* np.random.random_integers(low, high, size) *)
  random_integers : Z → Z → Z → M world (list Z);
  random_integers_spec low high size w l w' :
    random_integers low high size w = Ok (l, w') →
    length l = Z.to_nat size ∧ Forall (λ i, low ≤ i ≤ high) l;
}.

(** ** [convert_output_] *)

(** [np.array(output)] on the list of per-repetition results. *)
Definition np_array_results (output : list conn_result) : result ensemble :=
  match output with
  | [] => Ok (EArray (NdArray [0%nat] []))
  | CArray _ :: _ =>
      let* arrays := comprehension
        (λ c, match c with CArray a => Ok a | CDict _ => Err ValueError end) output in
      let* stacked := np_array arrays in
      Ok (EArray stacked)
  | CDict _ :: _ =>
      let* dicts := comprehension
        (λ c, match c with CDict d => Ok d | CArray _ => Err ValueError end) output in
      Ok (EObjects dicts)
  end.

(** [c[m]] for a measure name [m]. *)
Definition getitem (c : conn_result) (m : string) : result (ndarray Q) :=
  match c with
  | CDict d => match d !! m with Some a => Ok a | None => Err KeyError end
  | CArray _ => Err IndexError
  end.

(** [np.array([output[r][m] for r in range(repeats)])] *)
Definition stack_measure (output : list conn_result) (repeats : nat) (m : string)
    : result (ndarray Q) :=
  let* column := comprehension
                   (λ r : nat, match output !! r with
                               | Some c => getitem c m
                               | None => Err IndexError
                               end) (seq 0 repeats) in
  np_array column.

Definition convert_output_ (output : list conn_result) (measures : measure_names)
    : result ensemble :=
  match measures with
  | Name _ => np_array_results output
  | Names ms =>
      let repeats := length output in
      let* d := dict_comprehension ms (stack_measure output repeats) ∅ in
      Ok (EDict d)
  end.

(** ** The estimators *)

Section estimators.
Context `{Collaborators}.

(** The three lines every loop ends with: [var.fit(data_used)],
    [c = connectivity(measure_names, var.coef, var.rescov, nfft)] and
    [output.append(c)]. *)
Definition fit_and_append (measure_names : measure_names) (nfft : Z)
    (data_used : dataset) (output : list conn_result) : M world (list conn_result) :=
  let! _ := var_fit data_used in
  let! coef := read var_coef in
  let! rescov := read var_rescov in
  let! c := lift (connectivity measure_names coef rescov nfft) in
  ret (output ++ [c]).

Definition surrogate_connectivity (measure_names : measure_names) (data : dataset)
    (nfft : Z) (repeats : Z) : M world ensemble :=
  let! output := for_each (range repeats) (λ r output,
                    let! surrogate_data := randomize_phase data in
                    fit_and_append measure_names nfft surrogate_data output) [] in
  lift (convert_output_ output measure_names).

(** [[i for i in range(t) if i < b*leaveout or i >= (b+1)*leaveout]] *)
Definition jackknife_mask (t : Z) (leaveout : Q) (b : Z) : list Z :=
  List.filter (λ i, Qlt_bool (inject_Z i) (inject_Z b * leaveout)
                    || Qle_bool (inject_Z (b + 1) * leaveout) (inject_Z i))
              (range t).

Definition jackknife_connectivity (measure_names : measure_names) (data : dataset)
    (nfft : Z) (leaveout : Q) : M world ensemble :=
  let data := atleast_3d data in
  let t := Z.of_nat (length data) in
  let leaveout :=
    if Qlt_bool leaveout 1 then inject_Z (py_int (leaveout * inject_Z t)) else leaveout in
  let! q := lift (py_truediv (inject_Z t) leaveout) in
  let num_blocks := py_int q in
  let! output := for_each (range num_blocks) (λ b output,
                    let mask := jackknife_mask t leaveout b in
                    let! data_used := lift (take_trials data mask) in
                    fit_and_append measure_names nfft data_used output) [] in
  lift (convert_output_ output measure_names).

Definition bootstrap_connectivity (measures : measure_names) (data : dataset)
    (nfft : Z) (repeats : Z) (num_samples : option Z) : M world ensemble :=
  let data := atleast_3d data in
  let t := Z.of_nat (length data) in
  let num_samples := default t num_samples in
  let! output := for_each (range repeats) (λ r output,
                    let! mask := random_integers 0 (t - 1) num_samples in
                    let! data_used := lift (take_trials data mask) in
                    fit_and_append measures nfft data_used output) [] in
  lift (convert_output_ output measures).

End estimators.

(** ** The difference tests *)

Definition test_bootstrap_difference (a b : ndarray Q) : result (ndarray float) :=
  let old_shape := tail (shape a) in
  let* a0 := shape0 a in
  let* a := reshape_rows a a0 in
  let* b0 := shape0 b in
  let* b := reshape_rows b b0 in
  let* n := shape0 a in
  let* s := for_each (cartesian (seq 0 n) (seq 0 n)) (λ i s,
      let* bi := row b (Z.of_nat i.2) in
      let* ai := row a (Z.of_nat i.1) in
      let* c := broadcast Qminus bi ai in
      let* s1 := iadd s.1 ((λ d, Qle_bool 0 d) <$> c) in
      let* s2 := iadd s.2 ((λ d, Qle_bool d 0) <$> c) in
      Ok (s1, s2)) (Scalar 0, Scalar 0) in
  let* p := minimum_divide s.1 s.2 (Z.of_nat n * Z.of_nat n) in
  reshape p old_shape.

Section rank_test.
(** [scipy.stats.ttest_ind(x, y, equal_var=False)]: the p-value of Welch's
    test. *)
Variable ttest_ind : list Q → list Q → result float.

Definition test_rank_difference_a (a b : ndarray Q) : result (ndarray float) :=
  let old_shape := tail (shape a) in
  if negb (bool_decide (tail (shape b) = old_shape)) then Err AssertionError
  else
    let* a0 := shape0 a in
    let* a := reshape_rows a a0 in
    let* b0 := shape0 b in
    let* b := reshape_rows b b0 in
    let p := replicate (ncols a) (Fin 0) in
    let* p := for_each (seq 0 (ncols a)) (λ i p,
                let* pr := ttest_ind (column a i) (column b i) in
                Ok (<[i := pr]> p)) p in
    reshape p old_shape.

End rank_test.

(** * The specification's notions *)

(** The number of entries that are not not-a-number. *)
Definition count_not_nan (l : list float) : Z :=
  Z.of_nat (length (filter (λ v, isnan v = false) l)).





(** An array holds as many elements as its shape says. *)
Definition well_formed {A} (a : ndarray A) : Prop :=
  length (flat a) = foldr Nat.mul 1%nat (shape a).

(** [a] stacks the arrays [l] along a new leading axis: its leading dimension
    is their number and its slice at [r] is the [r]-th of them. *)
Definition stacks {A} (a : ndarray A) (l : list (ndarray A)) : Prop :=
  head (shape a) = Some (length l) ∧ ∀ r, slice a r = l !! r.

(** A per-repetition result fit for the requested measures: an array for a
    single name, a dictionary holding every requested name for a list of
    names; arrays of the shape [sh m] of their measure. *)
Definition conn_ok (sh : string → list nat) (measures : measure_names) (c : conn_result) : Prop :=
  match measures, c with
  | Name s, CArray a => shape a = sh s ∧ well_formed a
  | Names ms, CDict d => ∀ m, m ∈ ms → ∃ a, d !! m = Some a ∧ shape a = sh m ∧ well_formed a
  | _, _ => False
  end.

(** The ensemble [e] returned for [measures] has leading dimension [n]: as an
    array for a single name, in every value of a mapping whose keys are the
    requested names for a list of names. *)
Definition has_leading_dim (measures : measure_names) (e : ensemble) (n : Z) : Prop :=
  match measures, e with
  | Name _, EArray a => Z.of_nat <$> head (shape a) = Some n
  | Names ms, EDict d =>
      dom d = list_to_set ms ∧ ∀ m a, d !! m = Some a → Z.of_nat <$> head (shape a) = Some n
  | _, _ => False
  end.

(** The trials of [data] outside the contiguous block
    [[b·leaveout, (b+1)·leaveout)], in their order. *)
Definition trials_outside_block (data : list trial) (leaveout b : Z) : list trial :=
  take (Z.to_nat (b * leaveout)) data ++ drop (Z.to_nat ((b + 1) * leaveout)) data.

(** The ensemble of no estimate: [np.array([])], for every requested name. *)
Definition empty_ensemble (measures : measure_names) : ensemble :=
  match measures with
  | Name _ => EArray (NdArray [0%nat] [])
  | Names ms => EDict (gset_to_gmap (NdArray [0%nat] []) (list_to_set ms))
  end.

Section collaborators.
Context `{Collaborators}.

(** [estimates names nfft ds w cs w']: starting in state [w], the model is
    refitted on each data set of [ds] in turn and the measures computed from
    each fit are [cs]; the state is then [w']. *)
Inductive estimates (names : measure_names) (nfft : Z)
  : list dataset → world → list conn_result → world → Prop :=
| estimates_nil w : estimates names nfft [] w [] w
| estimates_cons d ds w w1 c cs w2 :
    var_fit d w = Ok ((), w1) →
    connectivity names (var_coef w1) (var_rescov w1) nfft = Ok c →
    estimates names nfft ds w1 cs w2 →
    estimates names nfft (d :: ds) w (c :: cs) w2.

(** No fit and no measure computation raises, and the measures returned are
    fit for the request. *)
Definition collaborators_succeed (names : measure_names) (nfft : Z)
    (sh : string → list nat) : Prop :=
  (∀ d w, ∃ w', var_fit d w = Ok ((), w')) ∧
  (∀ w, ∃ c, connectivity names (var_coef w) (var_rescov w) nfft = Ok c ∧
             conn_ok sh names c).

End collaborators.

(** The p-value of the bootstrap difference test in the words of the
    specification, for [a] of shape [[Ra, K]] and [b] of shape [[Rb, K]]:
    [s1[k]] counts the pairs [(i, j)] of [[0,Ra) × [0,Rb)] with
    [b[j,k] − a[i,k] ≥ 0], [s2[k]] those with [b[j,k] − a[i,k] ≤ 0], and the
    p-value is [min(s1[k], s2[k]) / (Ra·Rb)]. *)
Definition entry (a : ndarray Q) (i k : nat) : Q :=
  match shape a with
  | [_; K] => default 0%Q (flat a !! (i * K + k)%nat)
  | _ => 0%Q
  end.

Definition count_pairs (test : Q → bool) (a b : ndarray Q) (k : nat) : Z :=
  match shape a, shape b with
  | [Ra; _], [Rb; _] =>
      Z.of_nat (length (List.filter
        (λ ij : nat * nat, test (entry b ij.2 k - entry a ij.1 k)%Q)
        (list_prod (seq 0 Ra) (seq 0 Rb))))
  | _, _ => 0
  end.

Definition bootstrap_p_value (a b : ndarray Q) (k : nat) : float :=
  match shape a, shape b with
  | [Ra; _], [Rb; _] =>
      true_divide
        (inject_Z (Z.min (count_pairs (λ d, Qle_bool 0 d) a b k)
                         (count_pairs (λ d, Qle_bool d 0) a b k)))
        (Z.of_nat Ra * Z.of_nat Rb)
  | _, _ => NaN
  end.

(** * Data for the examples *)

Definition fdr_example : ndarray float :=
  NdArray [5%nat] [Fin (1#100); Fin (2#100); Fin (3#100); Fin (5#10); Fin (7#10)].

Definition fdr_example_nan : ndarray float :=
  NdArray [2%nat; 2%nat] [Fin (4#100); NaN; Fin (1#100); NaN].

(** Collaborators that never raise, for running the estimators: the state
    counts the calls that change it, a fit stores the number of trials it was
    given, and every measure is the one-element array of that number. *)
Definition toy_measure (n : nat) : ndarray Q := NdArray [1%nat] [inject_Z (Z.of_nat n)].

Definition toy_connectivity (names : measure_names) (c : nat) (r : ()) (nfft : Z)
    : result conn_result :=
  match names with
  | Name _ => Ok (CArray (toy_measure c))
  | Names ms => Ok (CDict (gset_to_gmap (toy_measure c) (list_to_set ms)))
  end.

Definition toy_random_integers (low high size : Z) : M (nat * nat) (list Z) := λ w,
  if (size <=? 0) || (low <=? high)
  then Ok (replicate (Z.to_nat size) low, (S w.1, w.2))
  else Err ValueError.

Definition toy_data : dataset := Data3 [[[1%Q]]; [[2%Q]]; [[3%Q]]; [[4%Q]]; [[5%Q]]].

(** One repetition in [a], two in [b]. *)
Definition unequal_a : ndarray Q := NdArray [1; 1]%nat [0%Q].
Definition unequal_b : ndarray Q := NdArray [2; 1]%nat [1%Q; (-1)%Q].

(** Trailing shapes [(1, 2)] and [(2, 1)]. *)
Definition mismatch_a : ndarray Q := NdArray [1; 1; 2]%nat [0%Q; 0%Q].
Definition mismatch_b : ndarray Q := NdArray [1; 2; 1]%nat [1%Q; 1%Q].

(** Per-repetition results for the measures ["ffDTF"] and ["PDC"]. *)
Definition toy_dict (n : nat) : gmap string (ndarray Q) :=
  <["ffDTF" := toy_measure n]> (<["PDC" := toy_measure (n + 10)]> ∅).


(** * Further notions *)

(** The number of entries of [l] that are at most [v]. *)
Definition count_le (l : list float) (v : float) : Z :=
  Z.of_nat (length (filter (λ w, le w v = true) l)).

(** The step-up rule without ranks: entry [x] is at most some entry [vy] that
    is itself at most [alpha] times the fraction of the entries, among those
    that are not not-a-number, that are at most [vy]. *)
Definition bh_step_up (p : list float) (alpha : Q) (x : nat) : Prop :=
  ∃ vx (y : nat) vy,
    p !! x = Some vx ∧ p !! y = Some vy ∧ le vx vy = true ∧
    le vy (fdr_threshold alpha (count_not_nan p) (count_le p vy)) = true.


(** A second sorting algorithm for [np.argsort], which orders equal values
    the other way round: the merge sort of the reversed array. *)
Definition reverse_argsort (p : list float) : list nat :=
  (λ i, length p - 1 - i)%nat <$> merge_argsort (reverse p).

(** P-values with a tie. *)
Definition fdr_example_tie : ndarray float :=
  NdArray [4%nat] [Fin (1#100); Fin (5#10); Fin (1#100); Fin (2#100)].

(** Two repetitions of two coordinates in [a], three in [b]. *)
Definition square_a : ndarray Q := NdArray [2; 2]%nat [1; 5; 3; 2]%Q.
Definition square_b : ndarray Q := NdArray [2; 2]%nat [2; 4; 0; 6]%Q.
Definition tall_b : ndarray Q := NdArray [3; 2]%nat [2; 4; 0; 6; 9; 9]%Q.

(** Three repetitions of one coordinate, and the same shifted by 10. *)
Definition low_a : ndarray Q := NdArray [3; 1]%nat [1#10; 2#10; 3#10].
Definition high_b : ndarray Q := NdArray [3; 1]%nat [101#10; 102#10; 103#10].


(** [d] is a sample of [n] trials, each one of [data]. *)
Definition bootstrap_sample (data : list trial) (n : Z) (d : dataset) : Prop :=
  ∃ trials, d = Data3 trials ∧ length trials = Z.to_nat n ∧ ∀ x, x ∈ trials → x ∈ data.
(** * Properties *)

(** ** Facts about numpy floats *)

Section float_facts.

Lemma float_le_nan_l x : le NaN x = false.
Proof. by destruct x. Qed.

Lemma float_le_nan_r x : le x NaN = false.
Proof. by destruct x. Qed.

Lemma float_le_true_not_nan x y : le x y = true → isnan x = false ∧ isnan y = false.
Proof. by destruct x, y. Qed.

Lemma float_le_refl x : isnan x = false → le x x = true.
Proof.
  destruct x; simpl; try done. intros _. apply Qle_bool_iff, Qle_refl.
Qed.

Lemma float_le_trans x y z : le x y = true → le y z = true → le x z = true.
Proof.
  destruct x, y, z; simpl; try done.
  rewrite !Qle_bool_iff. apply Qle_trans.
Qed.

Lemma float_le_total x y :
  isnan x = false → isnan y = false → le x y = true ∨ le y x = true.
Proof.
  destruct x as [| |a|], y as [| |b|]; simpl; try done; auto.
  intros _ _. rewrite !Qle_bool_iff.
  destruct (Qlt_le_dec a b) as [?%Qlt_le_weak|?]; auto.
Qed.


Lemma float_le_fin_r_mono x a b : (a <= b)%Q → le x (Fin a) = true → le x (Fin b) = true.
Proof. intros Hab Hx. apply (float_le_trans _ (Fin a)); [done|]. by apply Qle_bool_iff. Qed.

Lemma sort_le_nan_l y : sort_le NaN y = isnan y.
Proof. by destruct y. Qed.

Lemma sort_le_refl x : sort_le x x = true.
Proof.
  unfold sort_le. destruct (isnan x) eqn:Hx; [done|]. by rewrite float_le_refl.
Qed.

Lemma sort_le_trans x y z :
  sort_le x y = true → sort_le y z = true → sort_le x z = true.
Proof.
  unfold sort_le. intros Hxy Hyz.
  destruct (isnan z) eqn:Hz; [done|]. simpl in *.
  destruct (isnan y) eqn:Hy; simpl in *.
  - by destruct y, z.
  - by eapply float_le_trans.
Qed.

Lemma sort_le_total x y : sort_le x y = true ∨ sort_le y x = true.
Proof.
  unfold sort_le.
  destruct (isnan y) eqn:Hy; [by left|].
  destruct (isnan x) eqn:Hx; [by right|]. simpl. by apply float_le_total.
Qed.

End float_facts.

(** ** The merge-sort instance meets the contract of [np.argsort] *)

Global Instance by_value_trans : Transitive by_value.
Proof. intros a b c. apply sort_le_trans. Qed.

Global Instance by_value_total : Total by_value.
Proof. intros a b. apply sort_le_total. Qed.

Lemma imap_pair_fst {A} (l : list A) : (imap pair l).*1 = seq 0 (length l).
Proof.
  apply list_eq. intros i. rewrite list_lookup_fmap, list_lookup_imap.
  destruct (l !! i) as [a|] eqn:E; simpl; symmetry.
  - apply lookup_seq. split; [done|]. by eapply lookup_lt_Some.
  - apply lookup_seq_ge. by apply lookup_ge_None.
Qed.

Lemma merge_argsort_perm p : merge_argsort p ≡ₚ seq 0 (length p).
Proof.
  unfold merge_argsort. rewrite merge_sort_Permutation. by rewrite imap_pair_fst.
Qed.

Lemma StronglySorted_lookup_le {A} (R : relation A) `{!Reflexive R} l r1 r2 a b :
  StronglySorted R l → (r1 ≤ r2)%nat → l !! r1 = Some a → l !! r2 = Some b → R a b.
Proof.
  intros Hl. revert r1 r2.
  induction Hl as [|x l Hl IH Hx]; intros r1 r2 Hr H1 H2; [done|].
  destruct r1 as [|r1], r2 as [|r2]; simpl in *; try lia.
  - by simplify_eq.
  - simplify_eq. rewrite Forall_forall in Hx. apply Hx.
    by eapply list_elem_of_lookup_2.
  - apply (IH r1 r2); [lia|done..].
Qed.

Global Instance by_value_refl : Reflexive by_value.
Proof. intros a. apply sort_le_refl. Qed.

Lemma merge_argsort_sorted p r1 r2 x1 x2 v1 v2 :
  (r1 ≤ r2)%nat →
  merge_argsort p !! r1 = Some x1 → merge_argsort p !! r2 = Some x2 →
  p !! x1 = Some v1 → p !! x2 = Some v2 →
  sort_le v1 v2 = true.
Proof.
  unfold merge_argsort. intros Hr H1 H2 Hv1 Hv2.
  rewrite list_lookup_fmap in H1, H2.
  destruct (merge_sort by_value (imap pair p) !! r1) as [[y1 w1]|] eqn:E1; [|done].
  destruct (merge_sort by_value (imap pair p) !! r2) as [[y2 w2]|] eqn:E2; [|done].
  simpl in *. simplify_eq.
  assert (Hin : ∀ r y w, merge_sort by_value (imap pair p) !! r = Some (y, w) →
                         p !! y = Some w).
  { intros r y w Hl. apply list_elem_of_lookup_2 in Hl.
    rewrite merge_sort_Permutation in Hl.
    apply elem_of_lookup_imap in Hl as (i & z & ? & ?). by simplify_eq. }
  apply Hin in E1 as E1'. apply Hin in E2 as E2'. simplify_eq.
  change (by_value (x1, v1) (x2, v2)).
  eapply (StronglySorted_lookup_le by_value); [|done..].
  apply StronglySorted_merge_sort; apply _.
Qed.

Global Instance merge_Argsort : Argsort := {|
  argsort := merge_argsort;
  argsort_perm := merge_argsort_perm;
  argsort_sorted := merge_argsort_sorted;
|}.

(** ** Facts about the array operations *)

Lemma length_arange lo hi : length (arange lo hi) = Z.to_nat (hi - lo).
Proof. unfold arange. by rewrite length_fmap, length_seq. Qed.

Lemma lookup_arange lo hi (r : nat) :
  Z.of_nat r < hi - lo → arange lo hi !! r = Some (lo + Z.of_nat r).
Proof.
  intros Hr. unfold arange. rewrite list_lookup_fmap.
  rewrite (lookup_seq_lt 0 (Z.to_nat (hi - lo)) r) by lia. done.
Qed.

Lemma length_flat_assign dst idx src :
  length (flat_assign dst idx src) = length dst.
Proof.
  revert dst src. induction idx as [|x idx IH]; intros dst [|v src]; simpl; try done.
  by rewrite IH, length_insert.
Qed.

Lemma flat_assign_lookup_notin dst idx src x :
  x ∉ idx → flat_assign dst idx src !! x = dst !! x.
Proof.
  revert dst src. induction idx as [|y idx IH]; intros dst [|v src] Hx; simpl; try done.
  apply not_elem_of_cons in Hx as [Hxy Hx].
  rewrite IH by done. by rewrite list_lookup_insert_ne.
Qed.

Lemma flat_assign_lookup dst idx src r x v :
  NoDup idx → (x < length dst)%nat →
  idx !! r = Some x → src !! r = Some v →
  flat_assign dst idx src !! x = Some v.
Proof.
  revert dst src r.
  induction idx as [|y idx IH]; intros dst [|w src] r Hnd Hx Hi Hs; try done.
  apply NoDup_cons in Hnd as [Hy Hnd].
  destruct r as [|r]; simpl in *; simplify_eq.
  - rewrite flat_assign_lookup_notin by done. by apply list_lookup_insert_eq.
  - apply (IH _ _ r); try done. by rewrite length_insert.
Qed.

(** The content [np.empty] happens to return is never observed when every
    cell is assigned. *)
Lemma flat_assign_init dst dst' idx src :
  idx ≡ₚ seq 0 (length dst) → length dst' = length dst →
  length src = length idx →
  flat_assign dst' idx src = flat_assign dst idx src.
Proof.
  intros Hp Hd Hs. apply list_eq. intros x.
  assert (Hnd : NoDup idx) by (rewrite Hp; apply NoDup_seq).
  destruct (decide (x < length dst)%nat) as [Hx|Hx].
  - assert (x ∈ idx) as [r Hr]%list_elem_of_lookup_1
      by (rewrite Hp; apply elem_of_seq; lia).
    destruct (lookup_lt_is_Some_2 src r) as [v Hv].
    { rewrite Hs. by eapply lookup_lt_Some. }
    rewrite (flat_assign_lookup dst' idx src r x v) by (done || lia).
    by rewrite (flat_assign_lookup dst idx src r x v).
  - rewrite !lookup_ge_None_2; [done|rewrite length_flat_assign; lia..].
Qed.

Lemma np_sum_nonneg mask : 0 ≤ np_sum mask.
Proof. unfold np_sum. lia. Qed.

Lemma np_sum_zero mask :
  np_sum mask = 0 ↔ ∀ x, x ∈ mask → x = false.
Proof.
  unfold np_sum. induction mask as [|b mask IH].
  - split; [|done]. intros _ x Hx. by apply elem_of_nil in Hx.
  - rewrite filter_cons. destruct b; simpl.
    + split; [lia|].
      intros Hall. specialize (Hall true). by ospecialize (Hall _); [left|].
    + rewrite IH. split.
      * intros Hall x [->|Hx]%elem_of_cons; auto.
      * intros Hall x Hx. apply Hall. by right.
Qed.

Lemma np_sum_all_false mask :
  np_sum mask = 0 → ∀ x, (x < length mask)%nat → mask !! x = Some false.
Proof.
  intros Hz x Hx. destruct (lookup_lt_is_Some_2 mask x Hx) as [b Hb].
  rewrite Hb. f_equal. eapply np_sum_zero; [done|]. by eapply list_elem_of_lookup_2.
Qed.

Lemma elem_of_bool_index {A} (arr : list A) mask v :
  v ∈ bool_index arr mask ↔ ∃ x, arr !! x = Some v ∧ mask !! x = Some true.
Proof.
  revert mask. induction arr as [|a arr IH]; intros [|b mask]; simpl.
  - split; [by intros ?%elem_of_nil|]. by intros (x & ? & ?).
  - split; [by intros ?%elem_of_nil|]. by intros (x & ? & ?).
  - split; [by intros ?%elem_of_nil|]. by intros (x & ? & ?).
  - destruct b.
    + rewrite elem_of_cons, IH. split.
      * intros [->|(x & ? & ?)]; [by exists 0%nat|by exists (S x)].
      * intros ([|x] & ? & ?); simpl in *; simplify_eq; eauto.
    + rewrite IH. split.
      * intros (x & ? & ?). by exists (S x).
      * intros ([|x] & ? & ?); simpl in *; simplify_eq; eauto.
Qed.

(** The guard [np.sum(mask) == 0] keeps [np.max] away from an empty array. *)
Lemma bool_index_nonempty {A} (arr : list A) mask :
  length arr = length mask → np_sum mask ≠ 0 → bool_index arr mask ≠ [].
Proof.
  intros Hlen Hs Hnil. apply Hs, np_sum_zero. intros [] Hb; [|done].
  apply list_elem_of_lookup_1 in Hb as [x Hx].
  destruct (lookup_lt_is_Some_2 arr x) as [a Ha].
  { rewrite Hlen. by eapply lookup_lt_Some. }
  assert (a ∈ bool_index arr mask) as Hin by (apply elem_of_bool_index; eauto).
  rewrite Hnil in Hin. by apply elem_of_nil in Hin.
Qed.

Lemma foldl_max_spec x l :
  (foldl Z.max x l = x ∨ foldl Z.max x l ∈ l) ∧
  x ≤ foldl Z.max x l ∧ ∀ v, v ∈ l → v ≤ foldl Z.max x l.
Proof.
  revert x. induction l as [|y l IH]; intros x; simpl.
  - split_and!; [by left|lia|]. by intros v ?%elem_of_nil.
  - destruct (IH (Z.max x y)) as (Hin & Hle & Hall). split_and!.
    + destruct Hin as [Hin|Hin]; [|right; by right].
      rewrite Hin. destruct (Z.max_spec x y) as [[_ ->]|[_ ->]]; [right; by left|by left].
    + lia.
    + intros v [->|Hv]%elem_of_cons; [lia|by apply Hall].
Qed.

Lemma np_max_spec l :
  l ≠ [] → np_max l ∈ l ∧ ∀ v, v ∈ l → v ≤ np_max l.
Proof.
  destruct l as [|x l]; [done|]. intros _. simpl.
  destruct (foldl_max_spec x l) as (Hin & Hle & Hall). split.
  - destruct Hin as [->|Hin]; [by left|by right].
  - intros v [->|Hv]%elem_of_cons; [done|by apply Hall].
Qed.

(** ** Ranks computed by [significance_fdr] *)

Lemma np_sum_isnan l :
  np_sum (isnan <$> l) = Z.of_nat (length l) - count_not_nan l.
Proof.
  unfold np_sum, count_not_nan. induction l as [|v l IH]; [done|].
  rewrite fmap_cons, !filter_cons. destruct (isnan v); simpl in *; lia.
Qed.

Lemma count_not_nan_all_nan l :
  (∀ v, v ∈ l → isnan v = true) → count_not_nan l = 0.
Proof.
  unfold count_not_nan. induction l as [|v l IH]; intros Hall; [done|].
  rewrite filter_cons. rewrite (Hall v) by left. simpl.
  apply IH. intros w Hw. apply Hall. by right.
Qed.

Lemma count_not_nan_perm l1 l2 : l1 ≡ₚ l2 → count_not_nan l1 = count_not_nan l2.
Proof. intros Hp. unfold count_not_nan. by rewrite Hp. Qed.

(** In a list where nothing but not-a-number follows a not-a-number, the
    entries that are not-a-number are those from position [count_not_nan]. *)
Lemma nan_suffix (l : list float) :
  (∀ r1 r2 v1 v2, (r1 ≤ r2)%nat → l !! r1 = Some v1 → l !! r2 = Some v2 →
                  isnan v1 = true → isnan v2 = true) →
  ∀ (r : nat) v, l !! r = Some v → (isnan v = true ↔ count_not_nan l ≤ Z.of_nat r).
Proof.
  induction l as [|v0 l IH]; intros Hup r v Hr; [done|].
  assert (Hup' : ∀ r1 r2 v1 v2, (r1 ≤ r2)%nat → l !! r1 = Some v1 →
                   l !! r2 = Some v2 → isnan v1 = true → isnan v2 = true).
  { intros r1 r2 v1 v2 Hle H1 H2. apply (Hup (S r1) (S r2)); [lia|done..]. }
  destruct (isnan v0) eqn:Hv0.
  - assert (Hall : ∀ w, w ∈ v0 :: l → isnan w = true).
    { intros w [r2 Hw]%list_elem_of_lookup_1.
      by apply (Hup 0%nat r2 v0 w); [lia|..]. }
    rewrite (count_not_nan_all_nan _ Hall). split; [lia|]. intros _.
    apply Hall. by eapply list_elem_of_lookup_2.
  - assert (Hc : count_not_nan (v0 :: l) = count_not_nan l + 1).
    { unfold count_not_nan. rewrite filter_cons, Hv0. simpl. lia. }
    rewrite Hc. destruct r as [|r]; simpl in Hr.
    + simplify_eq. rewrite Hv0. unfold count_not_nan. split; [done|lia].
    + rewrite (IH Hup' r v Hr). lia.
Qed.

Lemma fmap_lookup_seq {A} (d : A) (l : list A) :
  (λ x, default d (l !! x)) <$> seq 0 (length l) = l.
Proof.
  apply list_eq. intros x. rewrite list_lookup_fmap.
  destruct (l !! x) as [a|] eqn:E.
  - rewrite lookup_seq_lt by (by eapply lookup_lt_Some). simpl. by rewrite E.
  - rewrite lookup_seq_ge; [done|]. by apply lookup_ge_None.
Qed.

Section fdr_facts.
Context `{Argsort}.
Implicit Types (p : ndarray float) (alpha : Q).

Lemma length_argsort p : length (argsort (flat p)) = length (flat p).
Proof. by rewrite argsort_perm, length_seq. Qed.

Lemma NoDup_argsort p : NoDup (argsort (flat p)).
Proof. rewrite argsort_perm. apply NoDup_seq. Qed.

Lemma elem_of_argsort p x : x ∈ argsort (flat p) ↔ (x < length (flat p))%nat.
Proof. rewrite argsort_perm, elem_of_seq. lia. Qed.

Lemma length_fdr_j p : length (fdr_j p) = length (flat p).
Proof. unfold fdr_j, np_empty; simpl. by rewrite length_flat_assign, length_replicate. Qed.

(** [j] holds the 1-indexed position of every entry in the sorted order. *)
Lemma fdr_j_rank p (r x : nat) :
  argsort (flat p) !! r = Some x → fdr_j p !! x = Some (Z.of_nat r + 1).
Proof.
  intros Hr. unfold fdr_j, np_empty; simpl.
  apply (flat_assign_lookup _ _ _ r).
  - apply NoDup_argsort.
  - rewrite length_replicate. apply elem_of_argsort. by eapply list_elem_of_lookup_2.
  - done.
  - replace (Z.of_nat r + 1) with (1 + Z.of_nat r) by lia.
    apply lookup_arange. apply lookup_lt_Some in Hr. lia.
Qed.

Lemma fdr_j_inv p (x : nat) jx :
  fdr_j p !! x = Some jx →
  ∃ r : nat, argsort (flat p) !! r = Some x ∧ jx = Z.of_nat r + 1.
Proof.
  intros Hj. apply lookup_lt_Some in Hj as Hx. rewrite length_fdr_j in Hx.
  apply elem_of_argsort, list_elem_of_lookup_1 in Hx as [r Hr].
  exists r. split; [done|]. apply fdr_j_rank in Hr. congruence.
Qed.

Lemma fdr_j_range p (x : nat) jx :
  fdr_j p !! x = Some jx → 1 ≤ jx ≤ Z.of_nat (length (flat p)).
Proof.
  intros (r & Hr & ->)%fdr_j_inv. apply lookup_lt_Some in Hr.
  rewrite length_argsort in Hr. lia.
Qed.

(** [m] is the number of entries that are not not-a-number. *)
Lemma fdr_m_count p : fdr_m p = count_not_nan (flat p).
Proof. unfold fdr_m. rewrite length_argsort, np_sum_isnan. lia. Qed.

Lemma fdr_m_nonneg p : 0 ≤ fdr_m p.
Proof. rewrite fdr_m_count. unfold count_not_nan. lia. Qed.

(** Not-a-number entries, and only they, have a rank above [m]. *)
Lemma fdr_j_nan p (x : nat) v jx :
  flat p !! x = Some v → fdr_j p !! x = Some jx →
  isnan v = true ↔ fdr_m p < jx.
Proof.
  intros Hv (r & Hr & ->)%fdr_j_inv.
  set (vals := (λ y, default NaN (flat p !! y)) <$> argsort (flat p)).
  assert (Hvals : ∀ r' y w, argsort (flat p) !! r' = Some y → flat p !! y = Some w →
                            vals !! r' = Some w).
  { intros r' y w Hr' Hw. unfold vals. by rewrite list_lookup_fmap, Hr'; simpl; rewrite Hw. }
  assert (Hinv : ∀ r' w, vals !! r' = Some w →
            ∃ y, argsort (flat p) !! r' = Some y ∧ flat p !! y = Some w).
  { intros r' w Hw. unfold vals in Hw. rewrite list_lookup_fmap in Hw.
    destruct (argsort (flat p) !! r') as [y|] eqn:Hy; [|done]. simpl in Hw.
    exists y. split; [done|].
    apply list_elem_of_lookup_2, elem_of_argsort, lookup_lt_is_Some_2 in Hy as [w' Hw'].
    rewrite Hw' in Hw |- *. simpl in Hw. congruence. }
  assert (Hperm : vals ≡ₚ flat p).
  { unfold vals. rewrite argsort_perm. by rewrite fmap_lookup_seq. }
  rewrite fdr_m_count, <-(count_not_nan_perm _ _ Hperm).
  rewrite (nan_suffix vals) with (r := r) (v := v); [lia| |by eapply Hvals].
  intros r1 r2 v1 v2 Hle (y1 & Hy1 & Hw1)%Hinv (y2 & Hy2 & Hw2)%Hinv Hnan.
  pose proof (argsort_sorted _ _ _ _ _ _ _ Hle Hy1 Hy2 Hw1 Hw2) as Hs.
  destruct v1; try done. by rewrite sort_le_nan_l in Hs.
Qed.

Lemma length_fdr_mask p alpha : length (fdr_mask p alpha) = length (flat p).
Proof.
  unfold fdr_mask. rewrite length_zip_with, length_fmap, length_fdr_j. lia.
Qed.

Lemma lookup_fdr_mask p alpha (x : nat) b :
  fdr_mask p alpha !! x = Some b ↔
  ∃ v jx, flat p !! x = Some v ∧ fdr_j p !! x = Some jx ∧
          b = le v (fdr_threshold alpha (fdr_m p) jx).
Proof.
  unfold fdr_mask. rewrite lookup_zip_with_Some. split.
  - intros (v & t & -> & Hv & Ht). rewrite list_lookup_fmap in Ht.
    destruct (fdr_j p !! x) as [jx|] eqn:Hj; [|done]. simpl in Ht. simplify_eq.
    by exists v, jx.
  - intros (v & jx & Hv & Hj & ->). eexists v, _. split_and!; [done..|].
    by rewrite list_lookup_fmap, Hj.
Qed.

End fdr_facts.

(** ** [significance_fdr]: monotonicity and not-a-number entries *)

Lemma np_sum_mono (l1 l2 : list bool) :
  length l1 = length l2 →
  (∀ x : nat, l1 !! x = Some true → l2 !! x = Some true) →
  np_sum l1 ≤ np_sum l2.
Proof.
  unfold np_sum. revert l2.
  induction l1 as [|a l1 IH]; intros [|b l2] Hlen Himp; simplify_eq/=; [lia|].
  assert (IH' : Z.of_nat (length (filter (λ b : bool, b = true) l1)) ≤
                Z.of_nat (length (filter (λ b : bool, b = true) l2))).
  { apply IH; [done|]. intros x. apply (Himp (S x)). }
  rewrite !filter_cons. destruct a; simpl.
  - specialize (Himp 0%nat eq_refl). simplify_eq/=. lia.
  - destruct b; simpl; lia.
Qed.

Lemma fdr_threshold_mono (alpha1 alpha2 : Q) m jx v :
  (0 < alpha1)%Q → (alpha1 <= alpha2)%Q → 0 ≤ m → 0 < jx →
  le v (fdr_threshold alpha1 m jx) = true →
  le v (fdr_threshold alpha2 m jx) = true.
Proof.
  intros H0 H12 Hm Hj. unfold fdr_threshold, true_divide.
  assert (Hjq : (0 < inject_Z jx)%Q) by (change 0%Q with (inject_Z 0); by rewrite <-Zlt_Qlt).
  assert (H1 : (0 < alpha1 * inject_Z jx)%Q) by (by apply Qmult_lt_0_compat).
  assert (H2 : (0 < alpha2 * inject_Z jx)%Q).
  { apply Qmult_lt_0_compat; [|done]. by apply (Qlt_le_trans _ alpha1). }
  destruct (m =? 0) eqn:Em.
  - rewrite (proj1 (Qlt_alt _ _) H1), (proj1 (Qlt_alt _ _) H2). done.
  - apply float_le_fin_r_mono. apply Z.eqb_neq in Em.
    assert (Hmq : (0 < inject_Z m)%Q) by (change 0%Q with (inject_Z 0); rewrite <-Zlt_Qlt; lia).
    apply Qmult_le_compat_r.
    + apply Qmult_le_compat_r; [done|]. by apply Qlt_le_weak.
    + by apply Qlt_le_weak, Qinv_lt_0_compat.
Qed.

Section fdr_theorems.
Context `{Argsort}.
Implicit Types (p : ndarray float) (alpha : Q).

Lemma fdr_mask_mono p alpha1 alpha2 (x : nat) :
  (0 < alpha1)%Q → (alpha1 <= alpha2)%Q →
  fdr_mask p alpha1 !! x = Some true → fdr_mask p alpha2 !! x = Some true.
Proof.
  intros H0 H12 (v & jx & Hv & Hj & Hle)%lookup_fdr_mask.
  apply lookup_fdr_mask. exists v, jx. split_and!; [done..|]. symmetry.
  eapply fdr_threshold_mono; [done..|apply fdr_m_nonneg| |done].
  apply fdr_j_range in Hj. lia.
Qed.

(** The entries selected by [j[mask]], and their maximum [k]. *)
Lemma fdr_k_spec p alpha :
  np_sum (fdr_mask p alpha) ≠ 0 →
  let k := np_max (bool_index (fdr_j p) (fdr_mask p alpha)) in
  (∃ x : nat, fdr_j p !! x = Some k ∧ fdr_mask p alpha !! x = Some true) ∧
  (∀ (x : nat) jx, fdr_j p !! x = Some jx → fdr_mask p alpha !! x = Some true → jx ≤ k).
Proof.
  intros Hs k.
  destruct (np_max_spec (bool_index (fdr_j p) (fdr_mask p alpha))) as [Hin Hmax].
  { apply bool_index_nonempty; [|done]. by rewrite length_fdr_j, length_fdr_mask. }
  split.
  - by apply elem_of_bool_index in Hin.
  - intros x jx Hj Hm. apply Hmax, elem_of_bool_index. eauto.
Qed.

Lemma fdr_k_le_m p alpha :
  np_sum (fdr_mask p alpha) ≠ 0 →
  np_max (bool_index (fdr_j p) (fdr_mask p alpha)) ≤ fdr_m p.
Proof.
  intros Hs. destruct (fdr_k_spec p alpha Hs) as [(x & Hj & Hm) _].
  apply lookup_fdr_mask in Hm as (v & jx & Hv & Hj' & Hle). simplify_eq.
  symmetry in Hle. apply float_le_true_not_nan in Hle as [Hnan _].
  destruct (decide (fdr_m p < np_max (bool_index (fdr_j p) (fdr_mask p alpha))))
    as [Hlt|]; [|lia].
  apply (fdr_j_nan p x v _ Hv Hj) in Hlt. congruence.
Qed.

Lemma lookup_significance_fdr p alpha (x : nat) jx :
  np_sum (fdr_mask p alpha) ≠ 0 → fdr_j p !! x = Some jx →
  flat (significance_fdr p alpha) !! x =
    Some (jx <=? np_max (bool_index (fdr_j p) (fdr_mask p alpha))).
Proof.
  intros Hs Hj. unfold significance_fdr.
  apply Z.eqb_neq in Hs. rewrite Hs. simpl. by rewrite list_lookup_fmap, Hj.
Qed.

Lemma shape_significance_fdr p alpha :
  shape (significance_fdr p alpha) = shape p ∧
  length (flat (significance_fdr p alpha)) = length (flat p).
Proof.
  unfold significance_fdr. destruct (_ =? _); simpl.
  - by rewrite length_fdr_mask.
  - by rewrite length_fmap, length_fdr_j.
Qed.

End fdr_theorems.

(** C7.  For a fixed array of p-values, raising the level [alpha] within (0,1)
    never lowers the number of entries [significance_fdr] marks as
    significant. *)
Theorem significance_fdr_monotone `{Argsort} (p : ndarray float) (alpha1 alpha2 : Q) :
  (0 < alpha1)%Q → (alpha1 <= alpha2)%Q → (alpha2 < 1)%Q →
  np_sum (flat (significance_fdr p alpha1)) ≤ np_sum (flat (significance_fdr p alpha2)).
Proof.
  intros H0 H12 _. apply np_sum_mono.
  { destruct (shape_significance_fdr p alpha1) as [_ ->].
    by destruct (shape_significance_fdr p alpha2) as [_ ->]. }
  intros x Hx.
  destruct (decide (np_sum (fdr_mask p alpha1) = 0)) as [Hz|Hnz].
  { unfold significance_fdr in Hx. apply Z.eqb_eq in Hz as Hz'. rewrite Hz' in Hx.
    simpl in Hx. apply lookup_lt_Some in Hx as Hlt.
    rewrite (np_sum_all_false _ Hz x Hlt) in Hx. done. }
  destruct (fdr_k_spec p alpha1 Hnz) as [(y & Hjy & Hmy) _].
  assert (Hnz2 : np_sum (fdr_mask p alpha2) ≠ 0).
  { intros Hz. apply (fdr_mask_mono p alpha1 alpha2 y H0 H12) in Hmy.
    apply lookup_lt_Some in Hmy as Hlt.
    rewrite (np_sum_all_false _ Hz y Hlt) in Hmy. done. }
  destruct (fdr_k_spec p alpha2 Hnz2) as [_ Hmax2].
  assert (Hk : np_max (bool_index (fdr_j p) (fdr_mask p alpha1)) ≤
               np_max (bool_index (fdr_j p) (fdr_mask p alpha2))).
  { apply (Hmax2 y); [done|]. by apply (fdr_mask_mono p alpha1 alpha2). }
  apply lookup_lt_Some in Hx as Hlt.
  destruct (shape_significance_fdr p alpha1) as [_ Hlen]. rewrite Hlen in Hlt.
  rewrite <-(length_fdr_j p) in Hlt.
  destruct (lookup_lt_is_Some_2 _ _ Hlt) as [jx Hj].
  rewrite (lookup_significance_fdr p alpha1 x jx Hnz Hj) in Hx.
  rewrite (lookup_significance_fdr p alpha2 x jx Hnz2 Hj).
  f_equal. injection Hx as Hx. apply Z.leb_le in Hx. apply Z.leb_le. lia.
Qed.

Lemma significance_fdr_monotone_witness :
  np_sum (flat (significance_fdr fdr_example (1#100))) ≤
  np_sum (flat (significance_fdr fdr_example (5#100))).
Proof. by apply (significance_fdr_monotone fdr_example (1#100) (5#100)). Defined.

(** C10.  [significance_fdr] never marks a not-a-number entry as significant:
    such an entry has a rank above [m] and above the rank of every other
    entry, the threshold rank [k] is at most [m], and the entry's mask value
    is false. *)
Theorem significance_fdr_nan `{Argsort} (p : ndarray float) (alpha : Q) (x : nat) :
  flat p !! x = Some NaN →
  (∃ jx, fdr_j p !! x = Some jx ∧ fdr_m p < jx ∧
         ∀ (y : nat) v jy, flat p !! y = Some v → isnan v = false →
                           fdr_j p !! y = Some jy → jy ≤ fdr_m p ∧ jy < jx) ∧
  (np_sum (fdr_mask p alpha) ≠ 0 →
   np_max (bool_index (fdr_j p) (fdr_mask p alpha)) ≤ fdr_m p) ∧
  flat (significance_fdr p alpha) !! x = Some false.
Proof.
  intros Hx. apply lookup_lt_Some in Hx as Hlt. rewrite <-(length_fdr_j p) in Hlt.
  destruct (lookup_lt_is_Some_2 _ _ Hlt) as [jx Hj].
  assert (Hm : fdr_m p < jx) by (by apply (fdr_j_nan p x NaN jx Hx Hj)).
  split_and!.
  - exists jx. split_and!; [done..|]. intros y v jy Hv Hnan Hjy.
    destruct (decide (fdr_m p < jy)) as [Hgt|]; [|lia].
    apply (fdr_j_nan p y v jy Hv Hjy) in Hgt. congruence.
  - apply fdr_k_le_m.
  - destruct (decide (np_sum (fdr_mask p alpha) = 0)) as [Hz|Hnz].
    + unfold significance_fdr. apply Z.eqb_eq in Hz as ->. simpl.
      apply lookup_fdr_mask. exists NaN, jx. by rewrite float_le_nan_l.
    + rewrite (lookup_significance_fdr p alpha x jx Hnz Hj). f_equal.
      apply Z.leb_gt. pose proof (fdr_k_le_m p alpha Hnz). lia.
Qed.

Lemma significance_fdr_nan_witness :
  flat (significance_fdr fdr_example_nan (5#100)) !! 1%nat = Some false.
Proof.
  apply (significance_fdr_nan fdr_example_nan (5#100) 1). reflexivity.
Defined.

(** ** [significance_fdr] is the Benjamini-Hochberg rule *)


Section fdr_bh.
Context `{Argsort}.
Implicit Types (p : ndarray float) (alpha : Q).






End fdr_bh.





(** ** Stacking arrays *)

Lemma np_array_uniform {A} (l : list (ndarray A)) sh :
  l ≠ [] → Forall (λ a, shape a = sh) l →
  np_array l = Ok (NdArray (length l :: sh) (concat (flat <$> l))).
Proof.
  destruct l as [|a l]; [done|]. intros _ [Ha Hl]%Forall_cons. simpl.
  assert (forallb (λ b, bool_decide (shape b = shape a)) l = true) as ->.
  { apply forallb_forall. intros b Hb%list_elem_of_In. apply bool_decide_eq_true.
    rewrite Forall_forall in Hl. rewrite Ha. by apply Hl. }
  by rewrite Ha.
Qed.

Lemma take_drop_concat {A} (ls : list (list A)) size r :
  Forall (λ l, length l = size) ls →
  take size (drop (r * size) (concat ls)) = default [] (ls !! r).
Proof.
  revert r. induction ls as [|l ls IH]; intros r Hls.
  - simpl. by rewrite drop_nil, take_nil.
  - apply Forall_cons in Hls as [Hl Hls]. destruct r as [|r]; simpl.
    + rewrite drop_0. by rewrite take_app_length'.
    + rewrite (drop_app_add' l (concat ls) size (r * size)) by done. by apply IH.
Qed.

Lemma np_array_stacks {A} (l : list (ndarray A)) sh :
  Forall (λ a, shape a = sh ∧ well_formed a) l →
  ∃ a, np_array l = Ok a ∧ stacks a l.
Proof.
  intros Hl. destruct (decide (l = [])) as [->|Hne].
  { eexists. split; [done|]. split; [done|]. intros r. unfold slice; simpl.
    done. }
  eexists. split.
  { apply np_array_uniform; [done|]. eapply Forall_impl; [done|]. by intros a [? _]. }
  split; [done|]. intros r. unfold slice; simpl. case_decide as Hr.
  - destruct (lookup_lt_is_Some_2 l r Hr) as [a Ha]. rewrite Ha.
    rewrite take_drop_concat.
    + rewrite list_lookup_fmap, Ha. simpl.
      rewrite Forall_forall in Hl. destruct (Hl a) as [<- _]; [by eapply list_elem_of_lookup_2|].
      by destruct a.
    + apply Forall_fmap. eapply Forall_impl; [done|]. intros b [Hb Hwf]. simpl.
      by rewrite Hwf, Hb.
  - symmetry. apply lookup_ge_None. lia.
Qed.

(** ** Comprehensions *)

Lemma comprehension_ok {A B} (f : A → result B) (g : A → B) l :
  (∀ a, a ∈ l → f a = Ok (g a)) → comprehension f l = Ok (g <$> l).
Proof.
  induction l as [|a l IH]; intros Hf; [done|]. simpl.
  rewrite Hf by left. simpl. rewrite IH; [done|]. intros b Hb. apply Hf. by right.
Qed.

Lemma comprehension_app {A B} (f : A → result B) l1 l2 r1 r2 :
  comprehension f l1 = Ok r1 → comprehension f l2 = Ok r2 →
  comprehension f (l1 ++ l2) = Ok (r1 ++ r2).
Proof.
  revert r1. induction l1 as [|a l1 IH]; intros r1 H1 H2; simpl in *.
  - by simplify_eq.
  - destruct (f a) as [b|]; simpl in *; [|done].
    destruct (comprehension f l1) as [bs|]; simpl in *; [|done].
    simplify_eq. by rewrite (IH bs).
Qed.

Lemma dict_comprehension_ok {V} (keys : list string) (value : string → result V)
    (v : string → V) (d : gmap string V) :
  (∀ k, k ∈ keys → value k = Ok (v k)) →
  ∃ d', dict_comprehension keys value d = Ok d' ∧
        dom d' = list_to_set keys ∪ dom d ∧
        (∀ k, k ∈ keys → d' !! k = Some (v k)) ∧
        (∀ k, k ∉ keys → d' !! k = d !! k).
Proof.
  revert d. induction keys as [|k keys IH]; intros d Hv; simpl.
  - exists d. split_and!; [done|set_solver|by intros k ?%elem_of_nil|done].
  - rewrite Hv by left. simpl.
    destruct (IH (<[k := v k]> d)) as (d' & Hd' & Hdom & Hin & Hout).
    { intros k' Hk'. apply Hv. by right. }
    exists d'. split_and!; [done| | |].
    + rewrite Hdom, dom_insert_L. set_solver.
    + intros k' [Heq|Hk']%elem_of_cons.
      * subst k'. destruct (decide (k ∈ keys)) as [?|Hnot]; [by apply Hin|].
        rewrite Hout by done. apply lookup_insert_eq.
      * by apply Hin.
    + intros k' [Hne Hk']%not_elem_of_cons. rewrite Hout by done.
      by rewrite lookup_insert_ne.
Qed.

(** ** [convert_output_] *)

Lemma convert_output__name (s : string) (arrays : list (ndarray Q)) sh :
  Forall (λ a, shape a = sh ∧ well_formed a) arrays →
  ∃ a, convert_output_ (CArray <$> arrays) (Name s) = Ok (EArray a) ∧ stacks a arrays.
Proof.
  intros Hl. destruct (np_array_stacks arrays sh Hl) as (a & Ha & Hst).
  exists a. split; [|done]. simpl. destruct arrays as [|a0 arrays].
  { simpl in *. by simplify_eq. }
  change (CArray <$> a0 :: arrays) with (CArray a0 :: (CArray <$> arrays)).
  unfold np_array_results.
  rewrite (comprehension_ok _ (λ c, match c with CArray a => a | CDict _ => a0 end)).
  - change (CArray a0 :: (CArray <$> arrays)) with (CArray <$> a0 :: arrays).
    rewrite <-list_fmap_compose. simpl. rewrite list_fmap_id.
    change (a0 :: arrays) with ([a0] ++ arrays) in Ha |- *. simpl in *.
    by rewrite Ha.
  - intros c [->|(a' & -> & _)%list_elem_of_fmap]%elem_of_cons; done.
Qed.

Lemma convert_output__names (ms : list string) (dicts : list (gmap string (ndarray Q)))
    (sh : string → list nat) :
  Forall (λ d, ∀ m, m ∈ ms → ∃ a, d !! m = Some a ∧ shape a = sh m ∧ well_formed a) dicts →
  ∃ d, convert_output_ (CDict <$> dicts) (Names ms) = Ok (EDict d) ∧
       dom d = list_to_set ms ∧
       ∀ m, m ∈ ms → ∃ a col, d !! m = Some a ∧
                              Forall2 (λ d' a', d' !! m = Some a') dicts col ∧
                              stacks a col.
Proof.
  intros Hd. simpl.
  set (col := λ m : string, (λ d : gmap string (ndarray Q), default (NdArray [] []) (d !! m)) <$> dicts).
  assert (Hcol : ∀ m, m ∈ ms →
            Forall2 (λ d' a', d' !! m = Some a') dicts (col m) ∧
            Forall (λ a, shape a = sh m ∧ well_formed a) (col m)).
  { intros m Hm. unfold col. split.
    - apply Forall2_fmap_r, Forall_Forall2_diag. eapply Forall_impl; [done|].
      intros d Hdm. simpl. by destruct (Hdm m Hm) as (a & -> & _).
    - apply Forall_fmap. eapply Forall_impl; [done|].
      intros d Hdm. simpl. by destruct (Hdm m Hm) as (a & -> & ? & ?). }
  assert (Hst : ∀ m, m ∈ ms → ∃ a, np_array (col m) = Ok a ∧ stacks a (col m)).
  { intros m Hm. apply (np_array_stacks _ (sh m)). by apply Hcol. }
  set (v := λ m, match np_array (col m) with Ok a => a | Err _ => NdArray [] [] end).
  assert (Hval : ∀ m, m ∈ ms →
            stack_measure (CDict <$> dicts) (length (CDict <$> dicts)) m = Ok (v m)).
  { intros m Hm. unfold stack_measure.
    rewrite (comprehension_ok _ (λ r : nat, default (NdArray [] []) (col m !! r))).
    - simpl. assert ((λ r : nat, default (NdArray [] []) (col m !! r)) <$>
                       seq 0 (length (CDict <$> dicts)) = col m) as ->.
      { rewrite length_fmap. rewrite <-(length_fmap _ dicts : length (col m) = _).
        apply fmap_lookup_seq. }
      unfold v. by destruct (Hst m Hm) as (a & -> & _).
    - intros r Hr%elem_of_seq. rewrite length_fmap in Hr.
      destruct (lookup_lt_is_Some_2 dicts r) as [d Hdr]; [lia|].
      rewrite list_lookup_fmap, Hdr. simpl.
      rewrite Forall_forall in Hd.
      destruct (Hd d (list_elem_of_lookup_2 _ _ _ Hdr) m Hm) as (a & Ha & _).
      rewrite Ha. unfold col. by rewrite list_lookup_fmap, Hdr; simpl; rewrite Ha. }
  destruct (dict_comprehension_ok ms _ v ∅ Hval) as (d & Hdc & Hdom & Hin & _).
  rewrite Hdc. simpl. exists d. split_and!; [done| |].
  - rewrite Hdom. set_solver.
  - intros m Hm. destruct (Hst m Hm) as (a & Ha & Hsa). exists a, (col m).
    split_and!; [|by apply Hcol|done]. rewrite (Hin m Hm). unfold v. by rewrite Ha.
Qed.

(** C8.  Requested a single name, [convert_output_] returns one array
    stacking the per-repetition arrays along a new leading axis; requested a
    list of names, it returns a mapping whose keys are exactly those names,
    each value stacking that measure's per-repetition arrays along a new
    leading axis, of length the repeat count. *)
Theorem convert_output__aggregates (sh : string → list nat)
    (s : string) (arrays : list (ndarray Q))
    (ms : list string) (dicts : list (gmap string (ndarray Q))) :
  Forall (λ a, shape a = sh s ∧ well_formed a) arrays →
  Forall (λ d, ∀ m, m ∈ ms → ∃ a, d !! m = Some a ∧ shape a = sh m ∧ well_formed a)
         dicts →
  (∃ a, convert_output_ (CArray <$> arrays) (Name s) = Ok (EArray a) ∧
        stacks a arrays) ∧
  (∃ d, convert_output_ (CDict <$> dicts) (Names ms) = Ok (EDict d) ∧
        dom d = list_to_set ms ∧
        ∀ m, m ∈ ms →
             ∃ a col, d !! m = Some a ∧
                      Forall2 (λ d' a', d' !! m = Some a') dicts col ∧
                      stacks a col ∧ head (shape a) = Some (length dicts)).
Proof.
  intros Harr Hd. split.
  - by apply (convert_output__name s arrays (sh s)).
  - destruct (convert_output__names ms dicts sh Hd) as (d & Hc & Hdom & Hall).
    exists d. split_and!; [done..|]. intros m Hm.
    destruct (Hall m Hm) as (a & col & Ha & Hcol & Hst). exists a, col.
    split_and!; [done..|]. destruct Hst as [-> _]. f_equal. symmetry.
    by eapply Forall2_length.
Qed.

Lemma convert_output__aggregates_witness :
  (∃ a, convert_output_ (CArray <$> [toy_measure 1; toy_measure 2; toy_measure 3])
                        (Name "ffDTF") = Ok (EArray a) ∧
        stacks a [toy_measure 1; toy_measure 2; toy_measure 3]) ∧
  (∃ d, convert_output_ (CDict <$> [toy_dict 1; toy_dict 2; toy_dict 3])
                        (Names ["ffDTF"; "PDC"]) = Ok (EDict d) ∧
        dom d = list_to_set ["ffDTF"; "PDC"] ∧
        ∀ m, m ∈ ["ffDTF"; "PDC"] →
             ∃ a col, d !! m = Some a ∧
                      Forall2 (λ d' a', d' !! m = Some a')
                              [toy_dict 1; toy_dict 2; toy_dict 3] col ∧
                      stacks a col ∧ head (shape a) = Some 3%nat).
Proof.
  apply (convert_output__aggregates (λ _, [1%nat])).
  - repeat constructor.
  - repeat constructor;
      intros m [->|[->|[]%elem_of_nil]%elem_of_cons]%elem_of_cons;
      eexists; (split; [reflexivity|done]).
Defined.

(** ** Loops of the estimators *)

Lemma conn_ok_arrays sh s cs :
  Forall (conn_ok sh (Name s)) cs →
  ∃ arrays, cs = CArray <$> arrays ∧
            Forall (λ a, shape a = sh s ∧ well_formed a) arrays.
Proof.
  induction 1 as [|c cs Hc _ (arrays & -> & Harr)]; [by exists []|].
  destruct c as [a|]; [|done]. exists (a :: arrays). split; [done|]. by constructor.
Qed.

Lemma conn_ok_dicts sh ms cs :
  Forall (conn_ok sh (Names ms)) cs →
  ∃ dicts, cs = CDict <$> dicts ∧
           Forall (λ d, ∀ m, m ∈ ms → ∃ a, d !! m = Some a ∧ shape a = sh m ∧ well_formed a)
                  dicts.
Proof.
  induction 1 as [|c cs Hc _ (dicts & -> & Hd)]; [by exists []|].
  destruct c as [|d]; [done|]. exists (d :: dicts). split; [done|]. by constructor.
Qed.

(** On results fit for the request [convert_output_] returns an ensemble
    whose leading dimension is their number. *)
Lemma convert_output__leading_dim sh names cs :
  Forall (conn_ok sh names) cs →
  ∃ e, convert_output_ cs names = Ok e ∧ has_leading_dim names e (Z.of_nat (length cs)).
Proof.
  intros Hcs. destruct names as [s|ms].
  - destruct (conn_ok_arrays _ _ _ Hcs) as (arrays & -> & Harr).
    destruct (convert_output__name s arrays _ Harr) as (a & Ha & [Hhd _]).
    exists (EArray a). split; [done|]. simpl. by rewrite Hhd, length_fmap.
  - destruct (conn_ok_dicts _ _ _ Hcs) as (dicts & -> & Hd).
    destruct (convert_output__names ms dicts _ Hd) as (d & Hc & Hdom & Hall).
    exists (EDict d). split; [done|]. simpl. split; [done|]. intros m a Hma.
    assert (m ∈ ms) as Hm.
    { apply (elem_of_list_to_set (C := gset string)). rewrite <-Hdom.
      apply elem_of_dom. eauto. }
    destruct (Hall m Hm) as (a' & col & Ha' & Hcol & [Hhd _]). simplify_eq.
    rewrite Hhd. simpl. by rewrite length_fmap, (Forall2_length _ _ _ Hcol).
Qed.

Lemma convert_output__empty names :
  convert_output_ [] names = Ok (empty_ensemble names).
Proof.
  destruct names as [s|ms]; [done|]. simpl.
  destruct (dict_comprehension_ok ms (stack_measure [] 0) (λ _, NdArray [0%nat] []) ∅)
    as (d & -> & Hdom & Hin & Hout); [done|].
  simpl. do 2 f_equal. apply map_eq. intros m.
  rewrite lookup_gset_to_gmap. destruct (decide (m ∈ ms)) as [Hm|Hm].
  - rewrite option_guard_True by set_solver. by apply Hin.
  - rewrite option_guard_False by set_solver. by rewrite Hout.
Qed.

Section loops.
Context `{Collaborators}.
Implicit Types (names : measure_names) (nfft : Z) (w : world).

Lemma for_each_ext {A S} (l : list A) (f g : A → S → M world S) :
  (∀ a s w, a ∈ l → f a s w = g a s w) →
  ∀ s w, for_each l f s w = for_each l g s w.
Proof.
  induction l as [|a l IH]; intros Hfg s w; [done|]. simpl.
  rewrite Hfg by left. destruct (g a s w) as [[s' w']|]; [|done].
  apply IH. intros a' s'' w'' Ha'. apply Hfg. by right.
Qed.

Lemma fit_and_append_inv names nfft d out w out' w' :
  fit_and_append names nfft d out w = Ok (out', w') ↔
  ∃ c, var_fit d w = Ok ((), w') ∧
       connectivity names (var_coef w') (var_rescov w') nfft = Ok c ∧
       out' = out ++ [c].
Proof.
  unfold fit_and_append, read, lift. simpl.
  destruct (var_fit d w) as [[[] w1]|] eqn:Hfit; simpl.
  - destruct (connectivity names (var_coef w1) (var_rescov w1) nfft) as [c|] eqn:Hc; simpl.
    + split.
      * intros [= <- <-]. by exists c.
      * intros (c' & [= <-] & Hc' & ->). congruence.
    + split; [done|]. intros (c' & [= <-] & Hc' & _). congruence.
  - split; [done|]. by intros (c & ? & _).
Qed.

Lemma for_each_estimates {A} names nfft (D : A → dataset) (l : list A) out w out' w' :
  for_each l (λ a out, fit_and_append names nfft (D a) out) out w = Ok (out', w') ↔
  ∃ cs, estimates names nfft (D <$> l) w cs w' ∧ out' = out ++ cs.
Proof.
  revert out out' w. induction l as [|a l IH]; intros out out' w; simpl.
  - split.
    + intros [= <- <-]. exists []. split; [constructor|by rewrite app_nil_r].
    + intros (cs & Hcs & ->). inversion Hcs; subst. by rewrite app_nil_r.
  - destruct (fit_and_append names nfft (D a) out w) as [[o1 w1]|] eqn:Hfa.
    + apply fit_and_append_inv in Hfa as (c & Hfit & Hc & ->). rewrite IH. split.
      * intros (cs & Hcs & ->). exists (c :: cs). split; [by econstructor|].
        by rewrite <-app_assoc.
      * intros (cs & Hcs & ->). inversion Hcs as [|? ? ? w2 c2 cs2 ? Hfit2 Hc2 Hrest]; subst.
        rewrite Hfit in Hfit2. injection Hfit2 as <-.
        rewrite Hc in Hc2. injection Hc2 as <-.
        exists cs2. split; [done|]. by rewrite <-app_assoc.
    + split; [done|]. intros (cs & Hcs & ->).
      inversion Hcs as [|? ? ? w2 c2 cs2 ? Hfit2 Hc2 Hrest]; subst.
      assert (fit_and_append names nfft (D a) out w = Ok (out ++ [c2], w2)) as Hok.
      { apply fit_and_append_inv. eauto. }
      congruence.
Qed.

Lemma estimates_length names nfft ds w cs w' :
  estimates names nfft ds w cs w' → length cs = length ds.
Proof. induction 1; simpl; congruence. Qed.

Lemma estimates_total names nfft sh ds w :
  collaborators_succeed names nfft sh →
  ∃ cs w', estimates names nfft ds w cs w' ∧ Forall (conn_ok sh names) cs.
Proof.
  intros [Hfit Hconn]. revert w. induction ds as [|d ds IH]; intros w.
  - exists [], w. split; constructor.
  - destruct (Hfit d w) as [w1 Hw1]. destruct (Hconn w1) as (c & Hc & Hok).
    destruct (IH w1) as (cs & w2 & Hcs & Hall).
    exists (c :: cs), w2. split; [by econstructor|by constructor].
Qed.

Lemma fit_and_append_ok names nfft sh d out w :
  collaborators_succeed names nfft sh →
  ∃ c w', fit_and_append names nfft d out w = Ok (out ++ [c], w') ∧ conn_ok sh names c.
Proof.
  intros [Hfit Hconn]. destruct (Hfit d w) as [w1 Hw1].
  destruct (Hconn w1) as (c & Hc & Hok). exists c, w1. split; [|done].
  apply fit_and_append_inv. eauto.
Qed.

Lemma for_each_append_ok {A} (l : list A)
    (body : A → list conn_result → M world (list conn_result)) (P : conn_result → Prop) :
  (∀ a out w, a ∈ l → ∃ c w', body a out w = Ok (out ++ [c], w') ∧ P c) →
  ∀ out w, ∃ cs w', for_each l body out w = Ok (out ++ cs, w') ∧
                    length cs = length l ∧ Forall P cs.
Proof.
  induction l as [|a l IH]; intros Hbody out w; simpl.
  - exists [], w. by rewrite app_nil_r.
  - destruct (Hbody a out w) as (c & w1 & -> & Hc); [by left|].
    destruct (IH (λ a' out' w' Ha', Hbody a' out' w' (list_elem_of_further _ _ _ Ha'))
                 (out ++ [c]) w1) as (cs & w2 & -> & Hlen & Hall).
    exists (c :: cs), w2. rewrite <-app_assoc. split_and!; [done|simpl; lia|by constructor].
Qed.

End loops.

(** ** Python numbers *)

Lemma Qle_bool_inject_Z (x y : Z) : Qle_bool (inject_Z x) (inject_Z y) = (x <=? y).
Proof. apply eq_true_iff_eq. by rewrite Qle_bool_iff, <-Zle_Qle, Z.leb_le. Qed.

Lemma Qlt_bool_inject_Z (x y : Z) : Qlt_bool (inject_Z x) (inject_Z y) = (x <? y).
Proof. unfold Qlt_bool. by rewrite Qle_bool_inject_Z, Z.ltb_antisym. Qed.

Lemma py_int_inject_Z (x : Z) : py_int (inject_Z x) = x.
Proof. unfold py_int. simpl. apply Z.quot_1_r. Qed.

Lemma py_int_div (t l : Z) : 0 ≤ t → 1 ≤ l → py_int (inject_Z t / inject_Z l) = t / l.
Proof.
  intros Ht Hl. destruct l as [|p|p]; try lia. unfold py_int. simpl.
  rewrite Z.mul_1_r. apply Z.quot_div_nonneg; lia.
Qed.

Lemma py_truediv_inject_Z (a : Q) (l : Z) :
  py_truediv a (inject_Z l) =
    if decide (l = 0) then Err ZeroDivisionError else Ok (a / inject_Z l)%Q.
Proof.
  unfold py_truediv. destruct l; by case_decide.
Qed.

Lemma py_index_ok {A} (l : list A) (i : Z) :
  0 ≤ i < Z.of_nat (length l) →
  ∃ x, py_index l i = Ok x ∧ l !! Z.to_nat i = Some x.
Proof.
  intros Hi. unfold py_index.
  assert ((i <? 0) = false) as -> by lia.
  assert ((0 <=? i) && (i <? Z.of_nat (length l)) = true) as -> by lia.
  destruct (lookup_lt_is_Some_2 l (Z.to_nat i)) as [x Hx]; [lia|].
  exists x. by rewrite Hx.
Qed.

(** ** Selecting trials *)

Lemma take_trials_seqZ (data : list trial) (a len : Z) :
  0 ≤ a → 0 ≤ len → a + len ≤ Z.of_nat (length data) →
  comprehension (py_index data) (seqZ a len) =
    Ok (take (Z.to_nat len) (drop (Z.to_nat a) data)).
Proof.
  intros Ha Hlen Hle.
  rewrite (comprehension_ok _ (λ i, default ([] : trial) (data !! Z.to_nat i))).
  - f_equal. apply list_eq. intros k. rewrite list_lookup_fmap.
    destruct (decide (Z.of_nat k < len)) as [Hk|Hk].
    + rewrite lookup_seqZ_lt by done. simpl.
      rewrite lookup_take_lt by lia. rewrite lookup_drop.
      replace (Z.to_nat (a + Z.of_nat k)) with (Z.to_nat a + k)%nat by lia.
      destruct (lookup_lt_is_Some_2 data (Z.to_nat a + k)) as [x ->]; [lia|done].
    + rewrite lookup_seqZ_ge by lia. simpl. symmetry.
      apply lookup_take_ge. lia.
  - intros i Hi%elem_of_seqZ.
    destruct (py_index_ok data i) as (x & -> & ->); [lia|done].
Qed.

Lemma take_trials_in_range (data : list trial) (mask : list Z) :
  Forall (λ i, 0 ≤ i ≤ Z.of_nat (length data) - 1) mask →
  ∃ d, take_trials data mask = Ok d.
Proof.
  intros Hmask. unfold take_trials.
  rewrite (comprehension_ok _ (λ i, default ([] : trial) (data !! Z.to_nat i))); [by eexists|].
  intros i Hi. rewrite Forall_forall in Hmask.
  destruct (py_index_ok data i) as (x & -> & ->); [|done].
  specialize (Hmask i Hi). lia.
Qed.

(** ** The masks of [jackknife_connectivity] *)

Lemma filter_all {A} (f : A → bool) l :
  (∀ x, x ∈ l → f x = true) → List.filter f l = l.
Proof.
  induction l as [|a l IH]; intros Hf; [done|]. simpl.
  rewrite Hf by left. f_equal. apply IH. intros x Hx. apply Hf. by right.
Qed.

Lemma filter_none {A} (f : A → bool) l :
  (∀ x, x ∈ l → f x = false) → List.filter f l = [].
Proof.
  induction l as [|a l IH]; intros Hf; [done|]. simpl.
  rewrite Hf by left. apply IH. intros x Hx. apply Hf. by right.
Qed.

Lemma jackknife_mask_test (i b l : Z) :
  Qlt_bool (inject_Z i) (inject_Z b * inject_Z l)
  || Qle_bool (inject_Z (b + 1) * inject_Z l) (inject_Z i) =
  (i <? b * l) || ((b + 1) * l <=? i).
Proof. by rewrite <-!inject_Z_mult, Qlt_bool_inject_Z, Qle_bool_inject_Z. Qed.

Lemma elem_of_jackknife_mask (t l b i : Z) :
  i ∈ jackknife_mask t (inject_Z l) b ↔
  0 ≤ i < t ∧ ¬ (b * l ≤ i < (b + 1) * l).
Proof.
  unfold jackknife_mask, range.
  rewrite list_elem_of_In, filter_In, <-list_elem_of_In, elem_of_seqZ.
  rewrite jackknife_mask_test, orb_true_iff, Z.ltb_lt, Z.leb_le. lia.
Qed.

Lemma jackknife_mask_split (t l b : Z) :
  0 ≤ b → 1 ≤ l → (b + 1) * l ≤ t →
  jackknife_mask t (inject_Z l) b =
    seqZ 0 (b * l) ++ seqZ ((b + 1) * l) (t - (b + 1) * l).
Proof.
  intros Hb Hl Ht. unfold jackknife_mask, range.
  replace t with (b * l + (l + (t - (b + 1) * l))) at 1 by lia.
  rewrite seqZ_app by nia. rewrite seqZ_app by nia.
  rewrite !List.filter_app.
  rewrite filter_all, filter_none, filter_all.
  - simpl. f_equal. f_equal; lia.
  - intros i Hi%elem_of_seqZ. rewrite jackknife_mask_test. lia.
  - intros i Hi%elem_of_seqZ. rewrite jackknife_mask_test. lia.
  - intros i Hi%elem_of_seqZ. rewrite jackknife_mask_test. lia.
Qed.

(** The data a jackknife estimate is fitted on. *)
Lemma take_trials_jackknife (data : list trial) (l b : Z) :
  0 ≤ b → 1 ≤ l → (b + 1) * l ≤ Z.of_nat (length data) →
  take_trials data (jackknife_mask (Z.of_nat (length data)) (inject_Z l) b) =
    Ok (Data3 (trials_outside_block data l b)).
Proof.
  intros Hb Hl Ht. unfold take_trials, trials_outside_block.
  rewrite jackknife_mask_split by done.
  rewrite (comprehension_app _ _ _ (take (Z.to_nat (b * l)) data)
             (drop (Z.to_nat ((b + 1) * l)) data)); [done| |].
  - rewrite take_trials_seqZ by nia. by rewrite drop_0.
  - rewrite take_trials_seqZ by nia. f_equal. apply take_ge.
    rewrite length_drop. lia.
Qed.

(** ** The estimators *)

Section estimator_facts.
Context `{Collaborators}.
Implicit Types (names : measure_names) (nfft : Z) (w : world) (data : dataset).

(** A loop whose every pass appends one result fit for the request, followed
    by [convert_output_], returns an ensemble with one estimate per pass. *)
Lemma estimator_ok {A} (l : list A)
    (body : A → list conn_result → M world (list conn_result)) names sh w :
  (∀ a out w, a ∈ l → ∃ c w', body a out w = Ok (out ++ [c], w') ∧ conn_ok sh names c) →
  ∃ e w', (let! output := for_each l body [] in lift (convert_output_ output names)) w
            = Ok (e, w') ∧
          has_leading_dim names e (Z.of_nat (length l)).
Proof.
  intros Hbody.
  destruct (for_each_append_ok l body _ Hbody [] w) as (cs & w' & Hrun & Hlen & Hall).
  destruct (convert_output__leading_dim sh names cs Hall) as (e & He & Hdim).
  exists e, w'. simpl in *. rewrite Hrun. unfold lift. rewrite He.
  split; [done|]. by rewrite <-Hlen.
Qed.

Lemma length_range (n : Z) : Z.of_nat (length (range n)) = Z.max 0 n.
Proof. unfold range. rewrite length_seqZ. lia. Qed.

Lemma surrogate_connectivity_ok names data nfft repeats sh w :
  collaborators_succeed names nfft sh →
  (∀ w, ∃ d w', randomize_phase data w = Ok (d, w')) →
  ∃ e w', surrogate_connectivity names data nfft repeats w = Ok (e, w') ∧
          has_leading_dim names e (Z.max 0 repeats).
Proof.
  intros Hcol Hrand. rewrite <-length_range. unfold surrogate_connectivity.
  apply (estimator_ok _ _ _ sh). intros r out w0 _.
  destruct (Hrand w0) as (d & w1 & Hd).
  destruct (fit_and_append_ok names nfft sh d out w1 Hcol) as (c & w2 & Hc & Hok).
  exists c, w2. split; [|done]. simpl. by rewrite Hd.
Qed.

Lemma bootstrap_connectivity_ok names data nfft repeats num_samples sh w :
  let t := Z.of_nat (length (atleast_3d data)) in
  collaborators_succeed names nfft sh →
  (∀ w, ∃ mask w', random_integers 0 (t - 1) (default t num_samples) w = Ok (mask, w')) →
  ∃ e w', bootstrap_connectivity names data nfft repeats num_samples w = Ok (e, w') ∧
          has_leading_dim names e (Z.max 0 repeats).
Proof.
  intros t Hcol Hrand. rewrite <-length_range. unfold bootstrap_connectivity.
  apply (estimator_ok _ _ _ sh). intros r out w0 _.
  destruct (Hrand w0) as (mask & w1 & Hmask).
  destruct (random_integers_spec _ _ _ _ _ _ Hmask) as [_ Hrange].
  destruct (take_trials_in_range (atleast_3d data) mask Hrange) as [d Hd].
  destruct (fit_and_append_ok names nfft sh d out w1 Hcol) as (c & w2 & Hc & Hok).
  exists c, w2. split; [|done]. simpl. fold t. rewrite Hmask. unfold lift at 1.
  by rewrite Hd.
Qed.

(** With no pass of the loop no collaborator is called: the state is
    unchanged and the ensemble is empty. *)
Lemma surrogate_connectivity_no_repeat names data nfft repeats w :
  repeats < 1 →
  surrogate_connectivity names data nfft repeats w = Ok (empty_ensemble names, w).
Proof.
  intros Hr. unfold surrogate_connectivity, range. rewrite seqZ_nil by lia. simpl.
  unfold lift. by rewrite convert_output__empty.
Qed.

Lemma bootstrap_connectivity_no_repeat names data nfft repeats num_samples w :
  repeats < 1 →
  bootstrap_connectivity names data nfft repeats num_samples w =
    Ok (empty_ensemble names, w).
Proof.
  intros Hr. unfold bootstrap_connectivity, range. rewrite seqZ_nil by lia. simpl.
  unfold lift. by rewrite convert_output__empty.
Qed.

(** [jackknife_connectivity] for an absolute number of trials to leave out. *)
Lemma jackknife_connectivity_int names data nfft (leaveout : Z) w :
  1 ≤ leaveout →
  let trials := atleast_3d data in
  let t := Z.of_nat (length trials) in
  jackknife_connectivity names data nfft (inject_Z leaveout) w =
    (let! output := for_each (range (t / leaveout)) (λ b output,
         let! data_used := lift (take_trials trials (jackknife_mask t (inject_Z leaveout) b)) in
         fit_and_append names nfft data_used output) [] in
     lift (convert_output_ output names)) w.
Proof.
  intros Hl trials t. unfold jackknife_connectivity. fold trials. fold t.
  change 1%Q with (inject_Z 1). rewrite Qlt_bool_inject_Z.
  assert ((leaveout <? 1) = false) as -> by lia.
  simpl. unfold lift at 1. rewrite py_truediv_inject_Z.
  case_decide; [lia|]. by rewrite py_int_div by lia.
Qed.

(** The estimates of [jackknife_connectivity] are those of fits on the trials
    outside each block in turn. *)
Lemma jackknife_connectivity_estimates names data nfft (leaveout : Z) w e w' :
  1 ≤ leaveout →
  let trials := atleast_3d data in
  let num_blocks := Z.of_nat (length trials) / leaveout in
  jackknife_connectivity names data nfft (inject_Z leaveout) w = Ok (e, w') ↔
  ∃ cs, estimates names nfft
          ((λ b, Data3 (trials_outside_block trials leaveout b)) <$> range num_blocks)
          w cs w' ∧
        convert_output_ cs names = Ok e.
Proof.
  intros Hl trials num_blocks. rewrite jackknife_connectivity_int by done.
  fold trials. fold num_blocks. simpl.
  set (body := λ b output, fit_and_append names nfft
                 (Data3 (trials_outside_block trials leaveout b)) output).
  rewrite (for_each_ext _ _ body).
  2:{ intros b out w0 Hb%elem_of_seqZ. simpl.
      rewrite take_trials_jackknife; [done|lia|done|].
      unfold num_blocks in Hb.
      pose proof (Z.mul_div_le (Z.of_nat (length trials)) leaveout). nia. }
  assert (Hiff : ∀ cs w1, for_each (T := M world) (range num_blocks) body [] w = Ok (cs, w1) ↔
                          estimates names nfft
                            ((λ b, Data3 (trials_outside_block trials leaveout b)) <$>
                               range num_blocks) w cs w1).
  { intros cs w1. unfold body. rewrite for_each_estimates. split.
    - by intros (cs' & Hest & ->).
    - intros Hest. by exists cs. }
  destruct (for_each (T := M world) (range num_blocks) body [] w) as [[cs w1]|] eqn:Hrun.
  - pose proof (proj1 (Hiff cs w1) eq_refl) as Hest. unfold lift. split.
    + destruct (convert_output_ cs names) as [e'|] eqn:He; [|done].
      intros [= <- <-]. eauto.
    + intros (cs' & Hcs' & He). apply Hiff in Hcs'. simplify_eq. by rewrite He.
  - split; [done|]. intros (cs & Hcs & He). by apply Hiff in Hcs.
Qed.

Lemma jackknife_connectivity_ok names data nfft (leaveout : Z) sh w :
  1 ≤ leaveout →
  collaborators_succeed names nfft sh →
  ∃ e w', jackknife_connectivity names data nfft (inject_Z leaveout) w = Ok (e, w') ∧
          has_leading_dim names e (Z.of_nat (length (atleast_3d data)) / leaveout).
Proof.
  intros Hl Hcol.
  destruct (estimates_total names nfft sh
              ((λ b, Data3 (trials_outside_block (atleast_3d data) leaveout b)) <$>
                 range (Z.of_nat (length (atleast_3d data)) / leaveout)) w Hcol)
    as (cs & w' & Hest & Hall).
  destruct (convert_output__leading_dim sh names cs Hall) as (e & He & Hdim).
  exists e, w'. split.
  - apply jackknife_connectivity_estimates; eauto.
  - apply estimates_length in Hest. rewrite length_fmap in Hest.
    rewrite Hest, length_range in Hdim.
    rewrite Z.max_r in Hdim; [done|]. apply Z.div_pos; lia.
Qed.

End estimator_facts.

(** ** Collaborators to run the estimators with *)

Lemma toy_random_integers_spec low high size w l w' :
  toy_random_integers low high size w = Ok (l, w') →
  length l = Z.to_nat size ∧ Forall (λ i, low ≤ i ≤ high) l.
Proof.
  unfold toy_random_integers.
  destruct ((size <=? 0) || (low <=? high)) eqn:E; [|done]. intros [= <- <-].
  split; [by rewrite length_replicate|].
  apply Forall_forall. intros i [-> Hn]%elem_of_replicate. lia.
Qed.

Global Instance toy_collaborators : Collaborators := {|
  world := nat * nat;
  coef := nat;
  rescov := ();
  randomize_phase d := λ w, Ok (d, (S w.1, w.2));
  var_fit d := λ w, Ok ((), (w.1, length (atleast_3d d)));
  var_coef w := w.2;
  var_rescov w := ();
  connectivity := toy_connectivity;
  random_integers := toy_random_integers;
  random_integers_spec := toy_random_integers_spec;
|}.

Lemma toy_collaborators_succeed names nfft :
  collaborators_succeed names nfft (λ _, [1%nat]).
Proof.
  split; [by intros d w; eexists|]. intros w.
  destruct names as [s|ms]; (eexists; split; [done|]); simpl; [done|].
  intros m Hm. exists (toy_measure w.2). split; [|done].
  rewrite lookup_gset_to_gmap. apply option_guard_True. set_solver.
Qed.

(** The state the examples start in. *)
Definition toy_start : @world toy_collaborators := (0%nat, 0%nat).

(** ** The estimators: the claims *)


(** C4.  For every number of repeats that is at least 1,
    [surrogate_connectivity] and [bootstrap_connectivity] return (their
    collaborators raising nothing) an ensemble whose leading dimension is the
    number of repeats: that of the stacked array for a single name, that of
    each value of the mapping, whose keys are the names, for a list of
    names. *)
Theorem resampling_leading_dimension `{Collaborators}
    (names : measure_names) (data : dataset) (nfft repeats : Z)
    (num_samples : option Z) (sh : string → list nat) (w : world) :
  let t := Z.of_nat (length (atleast_3d data)) in
  1 ≤ repeats →
  collaborators_succeed names nfft sh →
  (∀ w, ∃ d w', randomize_phase data w = Ok (d, w')) →
  (∀ w, ∃ mask w', random_integers 0 (t - 1) (default t num_samples) w = Ok (mask, w')) →
  (∃ e w', surrogate_connectivity names data nfft repeats w = Ok (e, w') ∧
           has_leading_dim names e repeats) ∧
  (∃ e w', bootstrap_connectivity names data nfft repeats num_samples w = Ok (e, w') ∧
           has_leading_dim names e repeats).
Proof.
  intros t Hr Hcol Hrand Hint. split.
  - destruct (surrogate_connectivity_ok names data nfft repeats sh w Hcol Hrand)
      as (e & w' & He & Hdim).
    exists e, w'. split; [done|]. by rewrite Z.max_r in Hdim by lia.
  - destruct (bootstrap_connectivity_ok names data nfft repeats num_samples sh w Hcol Hint)
      as (e & w' & He & Hdim).
    exists e, w'. split; [done|]. by rewrite Z.max_r in Hdim by lia.
Qed.

Lemma resampling_leading_dimension_witness :
  (∃ e w', surrogate_connectivity (Names ["ffDTF"; "PDC"]) toy_data 512 3 toy_start
             = Ok (e, w') ∧
           has_leading_dim (Names ["ffDTF"; "PDC"]) e 3) ∧
  (∃ e w', bootstrap_connectivity (Names ["ffDTF"; "PDC"]) toy_data 512 3 None toy_start
             = Ok (e, w') ∧
           has_leading_dim (Names ["ffDTF"; "PDC"]) e 3).
Proof.
  apply (resampling_leading_dimension (Names ["ffDTF"; "PDC"]) toy_data 512 3 None
           (λ _, [1%nat]) toy_start).
  - lia.
  - apply toy_collaborators_succeed.
  - intros w. by eexists _, _.
  - intros w. by eexists _, _.
Defined.

(** C3.  For a time series of [T] trials and a number [leaveout] of trials to
    leave out, [jackknife_connectivity] computes [floor(T / leaveout)]
    estimates; estimate [b] is fitted on exactly the trials outside the block
    [[b·leaveout, (b+1)·leaveout)]; the blocks lie within the trials and do
    not overlap; the remainder trials are in every fit; with [leaveout = 1]
    the leading dimension of the ensemble is [T]. *)
Theorem jackknife_connectivity_blocks `{Collaborators}
    (names : measure_names) (data : dataset) (nfft leaveout : Z)
    (sh : string → list nat) (w : world) :
  let trials := atleast_3d data in
  let t := Z.of_nat (length trials) in
  let num_blocks := t / leaveout in
  let mask := jackknife_mask t (inject_Z leaveout) in
  1 ≤ leaveout →
  (collaborators_succeed names nfft sh →
   ∃ e w', jackknife_connectivity names data nfft (inject_Z leaveout) w = Ok (e, w') ∧
           has_leading_dim names e num_blocks) ∧
  (∀ e w', jackknife_connectivity names data nfft (inject_Z leaveout) w = Ok (e, w') ↔
           ∃ cs, estimates names nfft
                   ((λ b, Data3 (trials_outside_block trials leaveout b)) <$>
                      range num_blocks) w cs w' ∧
                 convert_output_ cs names = Ok e) ∧
  (∀ b, 0 ≤ b < num_blocks →
        take_trials trials (mask b) = Ok (Data3 (trials_outside_block trials leaveout b)) ∧
        Z.of_nat (length (trials_outside_block trials leaveout b)) = t - leaveout) ∧
  (∀ b i, i ∈ mask b ↔ 0 ≤ i < t ∧ ¬ (b * leaveout ≤ i < (b + 1) * leaveout)) ∧
  (∀ b, 0 ≤ b < num_blocks → 0 ≤ b * leaveout ∧ (b + 1) * leaveout ≤ t) ∧
  (∀ b b' i, 0 ≤ b < num_blocks → 0 ≤ b' < num_blocks → b ≠ b' → 0 ≤ i < t →
             i ∈ mask b ∨ i ∈ mask b') ∧
  (∀ b i, 0 ≤ b < num_blocks → num_blocks * leaveout ≤ i < t → i ∈ mask b) ∧
  (leaveout = 1 → num_blocks = t).
Proof.
  intros trials t num_blocks mask Hl.
  assert (Hnb : num_blocks * leaveout ≤ t).
  { unfold num_blocks. pose proof (Z.mul_div_le t leaveout). lia. }
  split_and!.
  - intros Hcol. by apply (jackknife_connectivity_ok names data nfft leaveout sh).
  - intros e w'. by apply jackknife_connectivity_estimates.
  - intros b Hb. split.
    + apply take_trials_jackknife; [lia|done|]. fold t. nia.
    + unfold trials_outside_block. rewrite length_app, length_take, length_drop.
      fold t. nia.
  - intros b i. apply elem_of_jackknife_mask.
  - intros b Hb. nia.
  - intros b b' i Hb Hb' Hne Hi. unfold mask. rewrite !elem_of_jackknife_mask. nia.
  - intros b i Hb Hi. unfold mask. rewrite elem_of_jackknife_mask. nia.
  - intros ->. unfold num_blocks. apply Z.div_1_r.
Qed.

Lemma jackknife_connectivity_blocks_witness :
  ∃ e w', jackknife_connectivity (Name "ffDTF") toy_data 512 (inject_Z 2) toy_start
            = Ok (e, w') ∧
          has_leading_dim (Name "ffDTF") e 2.
Proof.
  destruct (jackknife_connectivity_blocks (Name "ffDTF") toy_data 512 2 (λ _, [1%nat])
              toy_start) as [Hrun _].
  - lia.
  - apply Hrun, toy_collaborators_succeed.
Defined.



(** ** Parameters out of range *)

Lemma quot_nonpos (a b : Z) : a ≤ 0 → 0 < b → Z.quot a b ≤ 0.
Proof.
  intros Ha Hb. replace a with (- (- a)) by lia.
  rewrite Z.quot_opp_l by lia.
  pose proof (Z.quot_pos (- a) b). lia.
Qed.

Lemma py_int_nonpos (q : Q) : (q <= 0)%Q → py_int q ≤ 0.
Proof.
  intros Hq. unfold py_int. apply quot_nonpos; [|lia].
  unfold Qle in Hq. simpl in Hq. lia.
Qed.

Section unvalidated.
Context `{Collaborators}.

(** A [leaveout] of zero or less is taken for a fraction of the trials; the
    number of trials it truncates to divides the number of trials. *)
Lemma jackknife_connectivity_nonpos (names : measure_names) (data : dataset)
    (nfft : Z) (leaveout : Q) (w : world) :
  (leaveout <= 0)%Q →
  let l := py_int (leaveout * inject_Z (Z.of_nat (length (atleast_3d data)))) in
  (l = 0 → jackknife_connectivity names data nfft leaveout w = Err ZeroDivisionError) ∧
  (l ≠ 0 → jackknife_connectivity names data nfft leaveout w = Ok (empty_ensemble names, w)).
Proof.
  intros Hle l. unfold jackknife_connectivity.
  assert (Qlt_bool leaveout 1 = true) as ->.
  { unfold Qlt_bool. destruct (Qle_bool 1 leaveout) eqn:E; [|done].
    apply Qle_bool_iff in E. pose proof (Qle_trans _ _ _ E Hle) as Habs.
    by unfold Qle in Habs. }
  fold l. simpl. unfold lift at 1. rewrite py_truediv_inject_Z.
  assert (Hl : l ≤ 0).
  { apply py_int_nonpos. unfold Qle in *. simpl in *. nia. }
  split; intros Hl0; case_decide; try done.
  assert (py_int (inject_Z (Z.of_nat (length (atleast_3d data))) / inject_Z l) ≤ 0) as Hnb.
  { destruct l as [|p|p]; try lia. unfold py_int. simpl.
    apply quot_nonpos; lia. }
  unfold lift. simpl. unfold range. rewrite seqZ_nil by done. simpl.
  by rewrite convert_output__empty.
Qed.

End unvalidated.

(** C5, as the code has it.  No routine validates its parameters.  With
    [repeats < 1] [surrogate_connectivity] and [bootstrap_connectivity] return
    the empty ensemble and call no collaborator.  With [leaveout ≤ 0]
    [jackknife_connectivity] divides by the number of trials [leaveout]
    truncates to, before its loop: it raises [ZeroDivisionError] when that
    number is zero and returns the empty ensemble otherwise.  With [alpha]
    outside (0,1) [significance_fdr] returns a mask of the shape of [p]. *)
Theorem parameters_not_validated `{Collaborators} `{Argsort}
    (names : measure_names) (data : dataset) (nfft repeats : Z)
    (num_samples : option Z) (leaveout : Q) (p : ndarray float) (alpha : Q)
    (w : world) :
  repeats < 1 → (leaveout <= 0)%Q → (alpha <= 0 ∨ 1 <= alpha)%Q →
  surrogate_connectivity names data nfft repeats w = Ok (empty_ensemble names, w) ∧
  bootstrap_connectivity names data nfft repeats num_samples w
    = Ok (empty_ensemble names, w) ∧
  (let l := py_int (leaveout * inject_Z (Z.of_nat (length (atleast_3d data)))) in
   (l = 0 → jackknife_connectivity names data nfft leaveout w = Err ZeroDivisionError) ∧
   (l ≠ 0 → jackknife_connectivity names data nfft leaveout w
              = Ok (empty_ensemble names, w))) ∧
  shape (significance_fdr p alpha) = shape p ∧
  length (flat (significance_fdr p alpha)) = length (flat p).
Proof.
  intros Hr Hl _. split_and!.
  - by apply surrogate_connectivity_no_repeat.
  - by apply bootstrap_connectivity_no_repeat.
  - by apply jackknife_connectivity_nonpos.
  - apply shape_significance_fdr.
  - apply shape_significance_fdr.
Qed.

Lemma parameters_not_validated_witness :
  surrogate_connectivity (Name "ffDTF") toy_data 512 0 toy_start
    = Ok (empty_ensemble (Name "ffDTF"), toy_start) ∧
  jackknife_connectivity (Name "ffDTF") toy_data 512 0 toy_start = Err ZeroDivisionError ∧
  jackknife_connectivity (Name "ffDTF") toy_data 512 (inject_Z (-1)) toy_start
    = Ok (empty_ensemble (Name "ffDTF"), toy_start) ∧
  shape (significance_fdr fdr_example 2) = shape fdr_example.
Proof.
  pose proof (parameters_not_validated (Name "ffDTF") toy_data 512 0 None 0
                fdr_example 2 toy_start) as H0.
  pose proof (parameters_not_validated (Name "ffDTF") toy_data 512 0 None (inject_Z (-1))
                fdr_example 2 toy_start) as H1.
  destruct H0 as (Hs & _ & [Hz _] & Hshape & _); [lia|done|by right|].
  destruct H1 as (_ & _ & [_ Hnz] & _); [lia|done|by right|].
  split_and!; [exact Hs|by apply Hz|by apply Hnz|exact Hshape].
Defined.

(** C5 as stated fails: with [repeats = 0], and with [leaveout = -1],
    nothing is raised. *)
Lemma parameters_not_validated_counterexample :
  ¬ raises (surrogate_connectivity (Name "ffDTF") toy_data 512 0 toy_start) ∧
  ¬ raises (bootstrap_connectivity (Name "ffDTF") toy_data 512 0 None toy_start) ∧
  ¬ raises (jackknife_connectivity (Name "ffDTF") toy_data 512 (inject_Z (-1)) toy_start).
Proof. split_and!; by intros [e He]. Qed.

(** ** The difference tests *)

Lemma test_rank_difference_a_asserts ttest_ind (a b : ndarray Q) :
  tail (shape b) ≠ tail (shape a) →
  test_rank_difference_a ttest_ind a b = Err AssertionError.
Proof.
  intros Hne. unfold test_rank_difference_a. by rewrite bool_decide_eq_false_2.
Qed.

(** C6 at trailing shapes [(1, 2)] and [(2, 1)]: [test_rank_difference_a]
    raises at its assertion, [test_bootstrap_difference] returns p-values. *)
Theorem test_bootstrap_difference_no_shape_check :
  tail (shape mismatch_b) ≠ tail (shape mismatch_a) ∧
  test_bootstrap_difference mismatch_a mismatch_b
    = Ok (NdArray [1; 2]%nat [Fin 0; Fin 0]) ∧
  ∀ ttest_ind, test_rank_difference_a ttest_ind mismatch_a mismatch_b = Err AssertionError.
Proof. split_and!; [done|done|]. intros ttest_ind. by apply test_rank_difference_a_asserts. Qed.

(** C1 at one repetition in [a] and two in [b]: [test_bootstrap_difference]
    pairs [a[0]] with [b[0]] alone and returns 0, where the p-value over all
    pairs is 1/2; with the arguments exchanged it raises. *)
Theorem test_bootstrap_difference_unequal_repeats :
  test_bootstrap_difference unequal_a unequal_b = Ok (NdArray [1%nat] [Fin 0]) ∧
  bootstrap_p_value unequal_a unequal_b 0 = Fin (1 # 2) ∧
  test_bootstrap_difference unequal_b unequal_a = Err IndexError.
Proof. by split_and!. Qed.

(** ** [test_bootstrap_difference] on equally many repetitions *)

Section equal_repeats.
Variables (a b : ndarray Q) (R K : nat).
Hypothesis shape_a : shape a = [R; K].
Hypothesis shape_b : shape b = [R; K].
Hypothesis size_a : length (flat a) = (R * K)%nat.
Hypothesis size_b : length (flat b) = (R * K)%nat.

(** The number of pairs of [pairs] that pass [test] at coordinate [k]. *)
Let count (test : Q → bool) (pairs : list (nat * nat)) (k : nat) : Z :=
  Z.of_nat (length (List.filter
    (λ ij : nat * nat, test (entry b ij.2 k - entry a ij.1 k)%Q) pairs)).

(** The pass of the loop for the pair [i]. *)
Let body (i : nat * nat) (s : accumulator * accumulator)
    : result (accumulator * accumulator) :=
  let* bi := row b (Z.of_nat i.2) in
  let* ai := row a (Z.of_nat i.1) in
  let* c := broadcast Qminus bi ai in
  let* s1 := iadd s.1 ((λ d, Qle_bool 0 d) <$> c) in
  let* s2 := iadd s.2 ((λ d, Qle_bool d 0) <$> c) in
  Ok (s1, s2).

(** What an accumulator holds after the pairs [pairs]. *)
Let holds (test : Q → bool) (pairs : list (nat * nat)) (s : accumulator) : Prop :=
  match pairs with
  | [] => s = Scalar 0
  | _ => s = Vector (count test pairs <$> seq 0 K)
  end.

Lemma row_entries (x : ndarray Q) (i : nat) :
  shape x = [R; K] → length (flat x) = (R * K)%nat → (i < R)%nat →
  row x (Z.of_nat i) = Ok (entry x i <$> seq 0 K).
Proof.
  intros Hsh Hsize Hi. unfold row. rewrite Hsh.
  assert ((Z.of_nat i <? 0) = false) as -> by lia.
  assert ((0 <=? Z.of_nat i) && (Z.of_nat i <? Z.of_nat R) = true) as -> by lia.
  f_equal. rewrite Nat2Z.id. apply list_eq. intros k.
  rewrite list_lookup_fmap. destruct (decide (k < K)%nat) as [Hk|Hk].
  - rewrite lookup_take_lt, lookup_drop by done.
    rewrite lookup_seq_lt by done. simpl. unfold entry. rewrite Hsh.
    destruct (lookup_lt_is_Some_2 (flat x) (i * K + k)) as [v ->]; [nia|done].
  - rewrite lookup_take_ge, lookup_seq_ge by lia. done.
Qed.

Lemma iadd_count (test : Q → bool) pairs s (i j : nat) :
  holds test pairs s →
  iadd s (test <$> ((λ k, entry b j k - entry a i k)%Q <$> seq 0 K)) =
    Ok (Vector (count test (pairs ++ [(i, j)]) <$> seq 0 K)).
Proof.
  unfold holds, iadd. intros Hs. destruct pairs as [|p pairs]; subst s.
  - do 2 f_equal. rewrite <-!list_fmap_compose. apply list_fmap_ext.
    intros _ k _. unfold count. simpl. by destruct (test _).
  - rewrite decide_True by (by rewrite !length_fmap).
    do 2 f_equal. rewrite <-list_fmap_compose, zip_with_fmap_l, zip_with_fmap_r.
    rewrite zip_with_diag. apply list_fmap_ext. intros _ k _.
    unfold count. rewrite List.filter_app, length_app.
    generalize (length (List.filter
      (λ ij : nat * nat, test (entry b ij.2 k - entry a ij.1 k)%Q) (p :: pairs))).
    intros n. simpl. destruct (test _); simpl; lia.
Qed.

Lemma body_count pairs s (i j : nat) :
  (i < R)%nat → (j < R)%nat →
  holds (λ d, Qle_bool 0 d) pairs s.1 → holds (λ d, Qle_bool d 0) pairs s.2 →
  ∃ s', body (i, j) s = Ok s' ∧
        holds (λ d, Qle_bool 0 d) (pairs ++ [(i, j)]) s'.1 ∧
        holds (λ d, Qle_bool d 0) (pairs ++ [(i, j)]) s'.2.
Proof.
  intros Hi Hj H1 H2. unfold body. simpl.
  rewrite (row_entries b j), (row_entries a i) by done. simpl.
  unfold broadcast. rewrite decide_True by (by rewrite !length_fmap).
  rewrite zip_with_fmap_l, zip_with_fmap_r, zip_with_diag. simpl.
  rewrite (iadd_count _ pairs s.1 i j H1). simpl.
  rewrite (iadd_count _ pairs s.2 i j H2). simpl.
  eexists. split; [done|]. unfold holds. simpl.
  by destruct pairs.
Qed.

Lemma loop_count pairs0 pairs s :
  Forall (λ ij : nat * nat, ij.1 < R ∧ ij.2 < R)%nat pairs →
  holds (λ d, Qle_bool 0 d) pairs0 s.1 → holds (λ d, Qle_bool d 0) pairs0 s.2 →
  ∃ s', for_each pairs body s = Ok s' ∧
        holds (λ d, Qle_bool 0 d) (pairs0 ++ pairs) s'.1 ∧
        holds (λ d, Qle_bool d 0) (pairs0 ++ pairs) s'.2.
Proof.
  revert pairs0 s. induction pairs as [|[i j] pairs IH]; intros pairs0 s Hin H1 H2.
  - exists s. by rewrite app_nil_r.
  - apply Forall_cons in Hin as [[Hi Hj] Hin]. simpl in Hi, Hj.
    destruct (body_count pairs0 s i j Hi Hj H1 H2) as (s1 & Hs1 & H1' & H2').
    destruct (IH (pairs0 ++ [(i, j)]) s1 Hin H1' H2') as (s' & Hs' & ? & ?).
    exists s'. rewrite <-!app_assoc in *. simpl in *. by rewrite Hs1.
Qed.

End equal_repeats.

(** On ensembles of equally many repetitions and one trailing shape,
    [test_bootstrap_difference] returns at every trailing coordinate the
    p-value [min(s1, s2) / (R·R)] over all pairs of repetitions. *)
Lemma test_bootstrap_difference_equal_repeats (a b : ndarray Q) (R : nat) sh :
  shape a = R :: sh → shape b = R :: sh →
  well_formed a → well_formed b → (0 < R)%nat →
  let K := foldr Nat.mul 1%nat sh in
  let a2 := NdArray [R; K] (flat a) in
  let b2 := NdArray [R; K] (flat b) in
  ∃ p, test_bootstrap_difference a b = Ok (NdArray sh p) ∧
       length p = K ∧
       ∀ k, (k < K)%nat → p !! k = Some (bootstrap_p_value a2 b2 k).
Proof.
  intros Ha Hb Hwa Hwb HR K a2 b2.
  unfold well_formed in *. rewrite Ha in Hwa. rewrite Hb in Hwb. simpl in Hwa, Hwb.
  fold K in Hwa, Hwb.
  assert (Hresh : ∀ x : ndarray Q, length (flat x) = (R * K)%nat →
                    reshape_rows x R = Ok (NdArray [R; K] (flat x))).
  { intros x Hx. unfold reshape_rows. rewrite decide_False by lia. rewrite Hx.
    rewrite decide_True by (rewrite Nat.mul_comm; apply Nat.Div0.mod_mul).
    rewrite (Nat.mul_comm R K), Nat.div_mul by lia. done. }
  unfold test_bootstrap_difference, shape0. rewrite Ha, Hb. simpl.
  rewrite (Hresh a Hwa), (Hresh b Hwb). simpl. fold a2 b2.
  set (pairs := cartesian (seq 0 R) (seq 0 R)).
  destruct (loop_count a2 b2 R K eq_refl eq_refl Hwa Hwb [] pairs (Scalar 0, Scalar 0))
    as (s & Hs & H1 & H2); [|done|done|].
  { apply Forall_forall. intros [i j] Hij%list_elem_of_In.
    apply in_prod_iff in Hij as [Hi%list_elem_of_In%elem_of_seq Hj%list_elem_of_In%elem_of_seq].
    simpl. lia. }
  simpl in Hs. rewrite Hs. simpl in *.
  assert (pairs ≠ []) as Hne.
  { unfold pairs, cartesian. destruct R as [|R']; [lia|]. simpl. done. }
  destruct pairs as [|p0 pairs'] eqn:Hp; [done|]. rewrite <-Hp in *.
  destruct s as [s1 s2]. simpl in *. subst s1 s2.
  unfold minimum_divide, broadcast. rewrite decide_True by (by rewrite !length_fmap).
  simpl. unfold reshape.
  rewrite decide_True
    by (by rewrite length_fmap, length_zip_with, !length_fmap, length_seq; fold K; lia).
  eexists. split; [done|]. split.
  { rewrite length_fmap, length_zip_with, !length_fmap, length_seq. lia. }
  intros k Hk. rewrite zip_with_fmap_l, zip_with_fmap_r, zip_with_diag.
  rewrite <-list_fmap_compose, list_lookup_fmap, lookup_seq_lt by done. simpl.
  reflexivity.
Qed.

(** * Further properties *)

(** ** [significance_fdr] without ranks *)

Lemma ndarray_eq {A} (a b : ndarray A) : shape a = shape b → flat a = flat b → a = b.
Proof. destruct a, b; simpl. by intros -> ->. Qed.

Lemma filter_no_elem {A} (P : A → Prop) `{∀ x, Decision (P x)} (l : list A) :
  (∀ w, w ∈ l → ¬ P w) → filter P l = [].
Proof.
  induction l as [|a l IH]; intros Hl; [done|].
  rewrite filter_cons_False by (apply Hl; left). apply IH. intros w Hw. apply Hl. by right.
Qed.

(** In a list where an entry that passes [f] is followed by such entries
    only, the entries that pass are those from the number of entries that
    fail on. *)
Lemma passing_suffix {A} (f : A → bool) (l : list A) :
  (∀ (r1 r2 : nat) v1 v2, (r1 ≤ r2)%nat → l !! r1 = Some v1 → l !! r2 = Some v2 →
                          f v1 = true → f v2 = true) →
  ∀ (r : nat) v, l !! r = Some v →
    (f v = true ↔ (length (filter (λ w, f w = false) l) ≤ r)%nat).
Proof.
  induction l as [|v0 l IH]; intros Hup r v Hr; [done|].
  assert (Hup' : ∀ (r1 r2 : nat) v1 v2, (r1 ≤ r2)%nat → l !! r1 = Some v1 →
                   l !! r2 = Some v2 → f v1 = true → f v2 = true).
  { intros r1 r2 v1 v2 Hle H1 H2. apply (Hup (S r1) (S r2)); [lia|done..]. }
  rewrite filter_cons. destruct (f v0) eqn:Hv0; simpl.
  - assert (Hall : ∀ (r' : nat) w, l !! r' = Some w → f w = true).
    { intros r' w Hw. by apply (Hup 0%nat (S r') v0 w); [lia|..]. }
    assert (filter (λ w, f w = false) l = []) as ->.
    { apply filter_no_elem. intros w [r' Hw]%list_elem_of_lookup_1.
      rewrite (Hall r' w Hw). done. }
    simpl. split; [lia|]. intros _. destruct r as [|r]; simpl in Hr.
    + by simplify_eq.
    + by eapply Hall.
  - destruct r as [|r]; simpl in Hr.
    + simplify_eq. rewrite Hv0. split; [done|lia].
    + rewrite (IH Hup' r v Hr). lia.
Qed.

Lemma length_filter_negb {A} (g : A → bool) (l : list A) :
  length (filter (λ w, negb (g w) = false) l) = length (filter (λ w, g w = true) l).
Proof.
  induction l as [|a l IH]; [done|]. rewrite !filter_cons.
  destruct (g a); simpl; by rewrite IH.
Qed.

Lemma fdr_threshold_mono_rank (alpha : Q) m j1 j2 v :
  (0 <= alpha)%Q → 0 < m → j1 ≤ j2 →
  le v (fdr_threshold alpha m j1) = true → le v (fdr_threshold alpha m j2) = true.
Proof.
  intros Ha Hm Hj. unfold fdr_threshold, true_divide.
  assert ((m =? 0) = false) as -> by lia.
  apply float_le_fin_r_mono.
  assert (Hmq : (0 < inject_Z m)%Q) by (change 0%Q with (inject_Z 0); by rewrite <-Zlt_Qlt).
  apply Qmult_le_compat_r; [|by apply Qlt_le_weak, Qinv_lt_0_compat].
  rewrite !(Qmult_comm alpha). apply Qmult_le_compat_r; [|done]. by rewrite <-Zle_Qle.
Qed.


Lemma count_le_bounds (l : list float) (v : float) :
  0 ≤ count_le l v ≤ count_not_nan l.
Proof.
  unfold count_le, count_not_nan. split; [lia|]. apply inj_le.
  induction l as [|w l IH]; [done|]. rewrite !filter_cons.
  destruct (le w v) eqn:Hw.
  - apply float_le_true_not_nan in Hw as [-> _]. simpl. lia.
  - destruct (isnan w); simpl; lia.
Qed.

Lemma count_le_pos (l : list float) (v : float) :
  v ∈ l → isnan v = false → 1 ≤ count_le l v.
Proof.
  intros Hin Hv. unfold count_le.
  assert (v ∈ filter (λ w, le w v = true) l) as Hf.
  { apply list_elem_of_filter. split; [by apply float_le_refl|done]. }
  destruct (filter _ l); [by apply elem_of_nil in Hf|simpl; lia].
Qed.

Section fdr_step_up.
Context `{Argsort}.
Implicit Types (p : ndarray float) (alpha : Q).

(** The rank of an entry against the number of entries at most [v]. *)
Lemma fdr_j_le p (x : nat) w jx (v : float) :
  flat p !! x = Some w → fdr_j p !! x = Some jx →
  le w v = true ↔ jx ≤ count_le (flat p) v.
Proof.
  intros Hw (r & Hr & ->)%fdr_j_inv.
  set (vals := (λ y, default NaN (flat p !! y)) <$> argsort (flat p)).
  assert (Hvals : vals !! r = Some w).
  { unfold vals. by rewrite list_lookup_fmap, Hr; simpl; rewrite Hw. }
  assert (Hinv : ∀ r' w', vals !! r' = Some w' →
            ∃ y, argsort (flat p) !! r' = Some y ∧ flat p !! y = Some w').
  { intros r' w' Hw'. unfold vals in Hw'. rewrite list_lookup_fmap in Hw'.
    destruct (argsort (flat p) !! r') as [y|] eqn:Hy; [|done]. simpl in Hw'.
    exists y. split; [done|].
    apply list_elem_of_lookup_2, elem_of_argsort, lookup_lt_is_Some_2 in Hy as [w'' Hw''].
    rewrite Hw'' in Hw' |- *. simpl in Hw'. congruence. }
  assert (Hperm : vals ≡ₚ flat p).
  { unfold vals. rewrite argsort_perm. by rewrite fmap_lookup_seq. }
  pose proof (passing_suffix (λ u, negb (le u v)) vals) as Hsuf.
  ospecialize (Hsuf _ r w Hvals).
  { intros r1 r2 v1 v2 Hle (y1 & Hy1 & Hw1)%Hinv (y2 & Hy2 & Hw2)%Hinv Hf.
    pose proof (argsort_sorted _ _ _ _ _ _ _ Hle Hy1 Hy2 Hw1 Hw2) as Hs.
    apply negb_true_iff in Hf. apply negb_true_iff.
    destruct (le v2 v) eqn:E; [|done].
    unfold sort_le in Hs. apply float_le_true_not_nan in E as E'. destruct E' as [Hn _].
    rewrite Hn in Hs. simpl in Hs. by rewrite (float_le_trans _ _ _ Hs E) in Hf. }
  cbv beta in Hsuf.
  pose proof (length_filter_negb (λ u, le u v) vals) as E. cbv beta in E.
  rewrite E, Hperm in Hsuf. clear E. unfold count_le.
  rewrite negb_true_iff in Hsuf. destruct (le w v); split; try done.
  - intros _.
    destruct (decide (length (filter (λ w0, le w0 v = true) (flat p)) ≤ r)%nat) as [Hd|Hd];
      [|lia].
    by apply Hsuf in Hd.
  - intros Hc. destruct Hsuf as [Hs _]. specialize (Hs eq_refl). lia.
Qed.

Lemma fdr_j_exists p (r : Z) :
  1 ≤ r ≤ Z.of_nat (length (flat p)) → ∃ x : nat, fdr_j p !! x = Some r.
Proof.
  intros Hr. destruct (lookup_lt_is_Some_2 (argsort (flat p)) (Z.to_nat (r - 1))) as [x Hx].
  { rewrite length_argsort. lia. }
  exists x. rewrite (fdr_j_rank p _ x Hx). f_equal. lia.
Qed.

Lemma count_not_nan_le_length (l : list float) : count_not_nan l ≤ Z.of_nat (length l).
Proof. unfold count_not_nan. apply inj_le, length_filter. Qed.

Lemma significance_fdr_step_up p alpha (x : nat) :
  (0 <= alpha)%Q →
  flat (significance_fdr p alpha) !! x = Some true ↔ bh_step_up (flat p) alpha x.
Proof.
  intros Ha. split.
  - intros Hx. destruct (decide (np_sum (fdr_mask p alpha) = 0)) as [Hz|Hnz].
    { unfold significance_fdr in Hx. apply Z.eqb_eq in Hz as Hz'. rewrite Hz' in Hx.
      simpl in Hx. apply lookup_lt_Some in Hx as Hlt.
      by rewrite (np_sum_all_false _ Hz x Hlt) in Hx. }
    apply lookup_lt_Some in Hx as Hlt.
    destruct (shape_significance_fdr p alpha) as [_ Hlen]. rewrite Hlen in Hlt.
    destruct (lookup_lt_is_Some_2 _ _ Hlt) as [vx Hvx].
    rewrite <-(length_fdr_j p) in Hlt.
    destruct (lookup_lt_is_Some_2 _ _ Hlt) as [jx Hjx].
    rewrite (lookup_significance_fdr p alpha x jx Hnz Hjx) in Hx.
    injection Hx as Hx. apply Z.leb_le in Hx.
    destruct (fdr_k_spec p alpha Hnz) as [(y & Hjy & Hmy) _].
    apply lookup_fdr_mask in Hmy as (vy & jy & Hvy & Hjy' & Hle). simplify_eq.
    symmetry in Hle. apply float_le_true_not_nan in Hle as Hnn. destruct Hnn as [Hnn _].
    assert (Hk : np_max (bool_index (fdr_j p) (fdr_mask p alpha)) ≤ count_le (flat p) vy).
    { apply (fdr_j_le p y vy _ vy Hvy Hjy). by apply float_le_refl. }
    pose proof (count_le_bounds (flat p) vy) as Hc.
    pose proof (fdr_j_range p y _ Hjy) as Hr.
    exists vx, y, vy. split_and!; [done..| |].
    + apply (fdr_j_le p x vx jx vy Hvx Hjx). lia.
    + rewrite <-fdr_m_count.
      eapply fdr_threshold_mono_rank; [done| |done|done]. rewrite fdr_m_count. lia.
  - intros (vx & y & vy & Hvx & Hvy & Hxy & Hle).
    apply float_le_true_not_nan in Hle as Hnn. destruct Hnn as [Hnn _].
    pose proof (count_le_bounds (flat p) vy) as Hc.
    pose proof (count_le_pos (flat p) vy (list_elem_of_lookup_2 _ _ _ Hvy) Hnn) as Hpos.
    pose proof (count_not_nan_le_length (flat p)) as Hn.
    destruct (fdr_j_exists p (count_le (flat p) vy)) as [z Hjz]; [lia|].
    apply lookup_lt_Some in Hjz as Hz. rewrite length_fdr_j in Hz.
    destruct (lookup_lt_is_Some_2 _ _ Hz) as [vz Hvz].
    assert (Hzy : le vz vy = true).
    { apply (fdr_j_le p z vz _ vy Hvz Hjz). lia. }
    assert (Hmz : fdr_mask p alpha !! z = Some true).
    { apply lookup_fdr_mask. exists vz, (count_le (flat p) vy). split_and!; [done..|].
      symmetry. rewrite fdr_m_count. by eapply float_le_trans. }
    assert (Hnz : np_sum (fdr_mask p alpha) ≠ 0).
    { intros Hsum. apply lookup_lt_Some in Hmz as Hlt.
      by rewrite (np_sum_all_false _ Hsum z Hlt) in Hmz. }
    destruct (fdr_k_spec p alpha Hnz) as [_ Hmax].
    pose proof (Hmax z _ Hjz Hmz) as Hk.
    apply lookup_lt_Some in Hvx as Hx. rewrite <-(length_fdr_j p) in Hx.
    destruct (lookup_lt_is_Some_2 _ _ Hx) as [jx Hjx].
    rewrite (lookup_significance_fdr p alpha x jx Hnz Hjx). f_equal. apply Z.leb_le.
    apply (fdr_j_le p x vx jx vy Hvx Hjx) in Hxy. lia.
Qed.

End fdr_step_up.



(** X2.  The mask does not depend on the order [np.argsort] gives to equal
    p-values: any two sorting algorithms that meet numpy's contract lead to
    the same result. *)
Theorem significance_fdr_sort_independent (H1 H2 : Argsort)
    (p : ndarray float) (alpha : Q) :
  (0 <= alpha)%Q →
  @significance_fdr H1 p alpha = @significance_fdr H2 p alpha.
Proof.
  intros Ha.
  destruct (@shape_significance_fdr H1 p alpha) as [Hs1 Hl1].
  destruct (@shape_significance_fdr H2 p alpha) as [Hs2 Hl2].
  apply ndarray_eq; [congruence|]. apply list_eq. intros x.
  destruct (decide (x < length (flat p))%nat) as [Hx|Hx].
  - destruct (lookup_lt_is_Some_2 (flat (@significance_fdr H1 p alpha)) x) as [b1 Hb1]; [lia|].
    destruct (lookup_lt_is_Some_2 (flat (@significance_fdr H2 p alpha)) x) as [b2 Hb2]; [lia|].
    rewrite Hb1, Hb2. f_equal.
    pose proof (@significance_fdr_step_up H1 p alpha x Ha) as E1.
    pose proof (@significance_fdr_step_up H2 p alpha x Ha) as E2.
    rewrite Hb1 in E1. rewrite Hb2 in E2.
    destruct b1, b2; try done.
    + destruct E1 as [E1 _]. specialize (E1 eq_refl). apply E2 in E1. by injection E1.
    + destruct E2 as [E2 _]. specialize (E2 eq_refl). apply E1 in E2. by injection E2.
  - rewrite !lookup_ge_None_2; [done|lia..].
Qed.

Lemma reverse_argsort_perm p : reverse_argsort p ≡ₚ seq 0 (length p).
Proof.
  unfold reverse_argsort. rewrite merge_argsort_perm, length_reverse.
  assert ((λ i, length p - 1 - i)%nat <$> seq 0 (length p) = reverse (seq 0 (length p)))
    as ->; [|by rewrite reverse_Permutation].
  apply list_eq. intros i. rewrite list_lookup_fmap.
  destruct (decide (i < length p)%nat) as [Hi|Hi].
  - rewrite reverse_lookup by (by rewrite length_seq).
    rewrite length_seq, !lookup_seq_lt by lia. simpl. f_equal. lia.
  - rewrite lookup_seq_ge by lia. symmetry. apply lookup_ge_None.
    rewrite length_reverse, length_seq. lia.
Qed.

Lemma reverse_argsort_sorted p r1 r2 x1 x2 v1 v2 :
  (r1 ≤ r2)%nat →
  reverse_argsort p !! r1 = Some x1 → reverse_argsort p !! r2 = Some x2 →
  p !! x1 = Some v1 → p !! x2 = Some v2 →
  sort_le v1 v2 = true.
Proof.
  unfold reverse_argsort. intros Hr H1 H2 Hv1 Hv2.
  rewrite list_lookup_fmap in H1, H2.
  destruct (merge_argsort (reverse p) !! r1) as [y1|] eqn:E1; [|done].
  destruct (merge_argsort (reverse p) !! r2) as [y2|] eqn:E2; [|done].
  simpl in *. simplify_eq.
  assert (Hy : ∀ r y, merge_argsort (reverse p) !! r = Some y → (y < length p)%nat).
  { intros r y Hy. apply list_elem_of_lookup_2 in Hy.
    rewrite merge_argsort_perm, length_reverse in Hy. apply elem_of_seq in Hy. lia. }
  apply (merge_argsort_sorted (reverse p) r1 r2 y1 y2); [done..| |].
  - rewrite reverse_lookup by eauto. rewrite <-Hv1. f_equal. lia.
  - rewrite reverse_lookup by eauto. rewrite <-Hv2. f_equal. lia.
Qed.

Definition reverse_Argsort : Argsort := {|
  argsort := reverse_argsort;
  argsort_perm := reverse_argsort_perm;
  argsort_sorted := reverse_argsort_sorted;
|}.

Lemma significance_fdr_sort_independent_witness :
  @argsort merge_Argsort (flat fdr_example_tie) ≠
    @argsort reverse_Argsort (flat fdr_example_tie) ∧
  @significance_fdr merge_Argsort fdr_example_tie (5#100) =
    @significance_fdr reverse_Argsort fdr_example_tie (5#100).
Proof.
  split; [by vm_compute|].
  apply (significance_fdr_sort_independent merge_Argsort reverse_Argsort
           fdr_example_tie (5#100)).
  done.
Defined.






(** X5.  The mask is closed downwards: with an entry every entry of a smaller
    or equal p-value is marked. *)
Theorem significance_fdr_downward `{Argsort} (p : ndarray float) (alpha : Q)
    (x y : nat) vx vy :
  (0 <= alpha)%Q →
  flat p !! x = Some vx → flat p !! y = Some vy → le vy vx = true →
  flat (significance_fdr p alpha) !! x = Some true →
  flat (significance_fdr p alpha) !! y = Some true.
Proof.
  intros Ha Hvx Hvy Hyx (vx' & z & vz & Hvx' & Hvz & Hxz & Hle)%significance_fdr_step_up;
    [|done].
  simplify_eq. apply significance_fdr_step_up; [done|].
  exists vy, z, vz. split_and!; [done..| |done]. by eapply float_le_trans.
Qed.

Lemma significance_fdr_downward_witness :
  flat (significance_fdr fdr_example (5#100)) !! 0%nat = Some true.
Proof.
  apply (significance_fdr_downward fdr_example (5#100) 2 0 (Fin (3#100)) (Fin (1#100)));
    done.
Defined.

(** X6.  An entry marked at a level stays marked at every larger level. *)
Theorem significance_fdr_monotone_pointwise `{Argsort} (p : ndarray float)
    (alpha1 alpha2 : Q) (x : nat) :
  (0 < alpha1)%Q → (alpha1 <= alpha2)%Q →
  flat (significance_fdr p alpha1) !! x = Some true →
  flat (significance_fdr p alpha2) !! x = Some true.
Proof.
  intros H0 H12 Hx.
  assert (Ha1 : (0 <= alpha1)%Q) by (by apply Qlt_le_weak).
  assert (Ha2 : (0 <= alpha2)%Q) by (by apply (Qle_trans _ alpha1)).
  apply significance_fdr_step_up in Hx as (vx & y & vy & Hvx & Hvy & Hxy & Hle); [|done].
  apply significance_fdr_step_up; [done|]. exists vx, y, vy. split_and!; [done..|].
  apply float_le_true_not_nan in Hle as Hnn. destruct Hnn as [Hnn _].
  pose proof (count_le_bounds (flat p) vy) as Hc.
  pose proof (count_le_pos (flat p) vy (list_elem_of_lookup_2 _ _ _ Hvy) Hnn) as Hpos.
  eapply fdr_threshold_mono; [done..|lia|lia|done].
Qed.

Lemma significance_fdr_monotone_pointwise_witness :
  flat (significance_fdr fdr_example (1#10)) !! 2%nat = Some true.
Proof.
  apply (significance_fdr_monotone_pointwise fdr_example (5#100) (1#10) 2); done.
Defined.

(** ** [test_bootstrap_difference] *)

Lemma for_each_result_ext {A S} (l : list A) (f g : A → S → result S) :
  (∀ a s, a ∈ l → f a s = g a s) → ∀ s, for_each l f s = for_each l g s.
Proof.
  induction l as [|a l IH]; intros Hfg s; [done|]. simpl.
  rewrite Hfg by left. destruct (g a s) as [s'|]; [|done].
  apply IH. intros a' s'' Ha'. apply Hfg. by right.
Qed.

Lemma for_each_result_app {A S} (l1 l2 : list A) (f : A → S → result S) s :
  for_each (l1 ++ l2) f s = let* s1 := for_each l1 f s in for_each l2 f s1.
Proof.
  revert s. induction l1 as [|a l1 IH]; intros s; [done|]. simpl.
  destruct (f a s) as [s'|]; [|done]. apply IH.
Qed.

Lemma reshape_rows_ok {A} (x : ndarray A) (R K : nat) :
  (0 < R)%nat → length (flat x) = (R * K)%nat →
  reshape_rows x R = Ok (NdArray [R; K] (flat x)).
Proof.
  intros HR Hx. unfold reshape_rows. rewrite decide_False by lia. rewrite Hx.
  rewrite decide_True by (rewrite Nat.mul_comm; apply Nat.Div0.mod_mul).
  rewrite (Nat.mul_comm R K), Nat.div_mul by lia. done.
Qed.

Lemma row_ok {A} (x : ndarray A) (R K i : nat) :
  shape x = [R; K] → (i < R)%nat →
  row x (Z.of_nat i) = Ok (take K (drop (i * K) (flat x))).
Proof.
  intros Hsh Hi. unfold row. rewrite Hsh.
  assert ((Z.of_nat i <? 0) = false) as -> by lia.
  assert ((0 <=? Z.of_nat i) && (Z.of_nat i <? Z.of_nat R) = true) as -> by lia.
  by rewrite Nat2Z.id.
Qed.

Lemma row_out_of_range {A} (x : ndarray A) (R K i : nat) :
  shape x = [R; K] → (R ≤ i)%nat → row x (Z.of_nat i) = Err IndexError.
Proof.
  intros Hsh Hi. unfold row. rewrite Hsh.
  assert ((Z.of_nat i <? 0) = false) as -> by lia.
  by assert ((0 <=? Z.of_nat i) && (Z.of_nat i <? Z.of_nat R) = false) as -> by lia.
Qed.

(** X7.  On ensembles of equally many repetitions [R] and one trailing shape
    [test_bootstrap_difference] returns an array of that shape holding, at
    every coordinate, [min(s1, s2) / (R·R)], with [s1] and [s2] the numbers
    of pairs of repetitions whose difference is [≥ 0] and [≤ 0]. *)
Theorem test_bootstrap_difference_all_pairs (a b : ndarray Q) (R : nat) sh :
  shape a = R :: sh → shape b = R :: sh →
  well_formed a → well_formed b → (0 < R)%nat →
  let K := foldr Nat.mul 1%nat sh in
  let a2 := NdArray [R; K] (flat a) in
  let b2 := NdArray [R; K] (flat b) in
  ∃ p, test_bootstrap_difference a b = Ok (NdArray sh p) ∧
       length p = K ∧
       ∀ k, (k < K)%nat → p !! k = Some (bootstrap_p_value a2 b2 k).
Proof. apply test_bootstrap_difference_equal_repeats. Qed.

Lemma test_bootstrap_difference_all_pairs_witness :
  ∃ p, test_bootstrap_difference square_a square_b = Ok (NdArray [2%nat] p) ∧
       length p = 2%nat ∧
       ∀ k, (k < 2)%nat → p !! k = Some (bootstrap_p_value square_a square_b k).
Proof.
  apply (test_bootstrap_difference_all_pairs square_a square_b 2 [2%nat]);
    (done || lia).
Defined.

(** X8.  Repetitions of [b] beyond the number of repetitions of [a] are never
    read: [test_bootstrap_difference] returns what it returns on [b] cut down
    to as many repetitions as [a] has. *)
Theorem test_bootstrap_difference_ignores_rows (a b : ndarray Q) (Ra Rb : nat) sh :
  shape a = Ra :: sh → shape b = Rb :: sh →
  well_formed a → well_formed b → (0 < Ra)%nat → (Ra ≤ Rb)%nat →
  let K := foldr Nat.mul 1%nat sh in
  test_bootstrap_difference a b =
    test_bootstrap_difference a (NdArray (Ra :: sh) (take (Ra * K) (flat b))).
Proof.
  intros Ha Hb Hwa Hwb HRa HR K.
  unfold well_formed in *. rewrite Ha in Hwa. rewrite Hb in Hwb. simpl in Hwa, Hwb.
  fold K in Hwa, Hwb.
  unfold test_bootstrap_difference, shape0. rewrite Ha, Hb. simpl.
  rewrite (reshape_rows_ok a Ra K), (reshape_rows_ok b Rb K) by (done || lia).
  rewrite (reshape_rows_ok _ Ra K); [|done|simpl; rewrite length_take; nia].
  simpl.
  rewrite (for_each_result_ext _ _
    (λ i s,
       let* bi := row (NdArray [Ra; K] (take (Ra * K) (flat b))) (Z.of_nat i.2) in
       let* ai := row (NdArray [Ra; K] (flat a)) (Z.of_nat i.1) in
       let* c := broadcast Qminus bi ai in
       let* s1 := iadd s.1 ((λ d, Qle_bool 0 d) <$> c) in
       let* s2 := iadd s.2 ((λ d, Qle_bool d 0) <$> c) in
       Ok (s1, s2))); [done|].
  intros [i j] s Hij%list_elem_of_In.
  apply in_prod_iff in Hij as [_ Hj%list_elem_of_In%elem_of_seq]. simpl.
  rewrite (row_ok _ Rb K j), (row_ok _ Ra K j) by (done || lia). simpl.
  assert (take K (drop (j * K) (take (Ra * K) (flat b))) =
          take K (drop (j * K) (flat b))) as ->; [|done].
  apply list_eq. intros k. destruct (decide (k < K)%nat) as [Hk|Hk].
  - rewrite !lookup_take_lt, !lookup_drop by done. apply lookup_take_lt. nia.
  - by rewrite !lookup_take_ge by lia.
Qed.

Lemma test_bootstrap_difference_ignores_rows_witness :
  test_bootstrap_difference square_a tall_b = test_bootstrap_difference square_a square_b.
Proof.
  apply (test_bootstrap_difference_ignores_rows square_a tall_b 2 3 [2%nat]);
    (done || lia).
Defined.

Lemma cartesian_first_row (Ra Rb : nat) :
  (Rb < Ra)%nat →
  ∃ rest, cartesian (seq 0 Ra) (seq 0 Ra) =
            List.map (pair 0%nat) (seq 0 Rb) ++ (0%nat, Rb) :: rest.
Proof.
  intros HR. unfold cartesian. destruct Ra as [|Ra']; [lia|].
  assert (seq 0 (S Ra') = seq 0 Rb ++ Rb :: seq (S Rb) (Ra' - Rb)) as Hseq.
  { replace (S Ra') with (Rb + S (Ra' - Rb))%nat at 1 by lia. by rewrite seq_app. }
  change (list_prod (seq 0 (S Ra')) (seq 0 (S Ra')))
    with (List.map (pair 0%nat) (seq 0 (S Ra')) ++ list_prod (seq 1 Ra') (seq 0 (S Ra'))).
  rewrite Hseq, List.map_app. simpl. rewrite <-app_assoc. simpl. by eexists.
Qed.

(** X9.  With fewer repetitions in [b] than in [a] (and at least one)
    [test_bootstrap_difference] raises [IndexError]. *)
Theorem test_bootstrap_difference_index_error (a b : ndarray Q) (Ra Rb : nat) sh :
  shape a = Ra :: sh → shape b = Rb :: sh →
  well_formed a → well_formed b → (0 < Rb)%nat → (Rb < Ra)%nat →
  test_bootstrap_difference a b = Err IndexError.
Proof.
  intros Ha Hb Hwa Hwb HRb HR. set (K := foldr Nat.mul 1%nat sh).
  unfold well_formed in *. rewrite Ha in Hwa. rewrite Hb in Hwb. simpl in Hwa, Hwb.
  fold K in Hwa, Hwb.
  unfold test_bootstrap_difference, shape0. rewrite Ha, Hb. simpl.
  rewrite (reshape_rows_ok a Ra K), (reshape_rows_ok b Rb K) by (done || lia).
  simpl. set (a2 := NdArray [Ra; K] (flat a)). set (b2 := NdArray [Rb; K] (flat b)).
  set (a1 := NdArray [Rb; K] (take (Rb * K) (flat a))).
  set (body := λ (x : ndarray Q) (i : nat * nat) (s : accumulator * accumulator),
       let* bi := row b2 (Z.of_nat i.2) in
       let* ai := row x (Z.of_nat i.1) in
       let* c := broadcast Qminus bi ai in
       let* s1 := iadd s.1 ((λ d, Qle_bool 0 d) <$> c) in
       let* s2 := iadd s.2 ((λ d, Qle_bool d 0) <$> c) in
       Ok (s1, s2)).
  change (match for_each (cartesian (seq 0 Ra) (seq 0 Ra)) (body a2) (Scalar 0, Scalar 0)
          with
          | Ok s => match minimum_divide s.1 s.2 (Z.of_nat Ra * Z.of_nat Ra) with
                    | Ok p => reshape p sh
                    | Err e => Err e
                    end
          | Err e => Err e
          end = Err IndexError).
  destruct (cartesian_first_row Ra Rb HR) as [rest ->].
  rewrite for_each_result_app.
  assert (Hprefix : ∃ s, for_each (List.map (pair 0%nat) (seq 0 Rb)) (body a2)
                           (Scalar 0, Scalar 0) = Ok s).
  { rewrite (for_each_result_ext _ _ (body a1)).
    - destruct (loop_count a1 b2 Rb K eq_refl eq_refl) with
        (pairs0 := @nil (nat * nat)) (pairs := List.map (pair 0%nat) (seq 0 Rb))
        (s := (Scalar 0, Scalar 0)) as (s & Hs & _); [| | |done|done|by exists s].
      + unfold a1. simpl. rewrite length_take. nia.
      + done.
      + apply Forall_forall. intros [i j] Hij%list_elem_of_In.
        apply in_map_iff in Hij as (j' & [= <- <-] & Hj%list_elem_of_In%elem_of_seq).
        simpl. lia.
    - intros [i j] s Hij%list_elem_of_In.
      apply in_map_iff in Hij as (j' & [= <- <-] & Hj%list_elem_of_In%elem_of_seq).
      unfold body. simpl.
      rewrite (row_ok a2 Ra K 0), (row_ok a1 Rb K 0) by (done || lia). simpl.
      rewrite !drop_0, take_take. by replace (K `min` (Rb * K))%nat with K by nia. }
  destruct Hprefix as [s ->]. simpl.
  unfold body at 1. simpl. by rewrite (row_out_of_range b2 Rb K Rb).
Qed.

Lemma test_bootstrap_difference_index_error_witness :
  test_bootstrap_difference tall_b square_a = Err IndexError.
Proof.
  apply (test_bootstrap_difference_index_error tall_b square_a 3 2 [2%nat]);
    (done || lia).
Defined.

(** *** Counting pairs *)

Lemma length_filter_map {A B} (f : B → bool) (g : A → B) (l : list A) :
  length (List.filter f (List.map g l)) = length (List.filter (λ x, f (g x)) l).
Proof. induction l as [|x l IH]; [done|]. simpl. destruct (f (g x)); simpl; by rewrite IH. Qed.

Lemma length_filter_prod_nil_r {A B} (f : A * B → bool) (X : list A) :
  length (List.filter f (list_prod X (@nil B))) = 0%nat.
Proof. induction X as [|x X IH]; [done|]. simpl. done. Qed.

Lemma length_filter_prod_cons_r {A B} (f : A * B → bool) (X : list A) (y : B) (Y : list B) :
  length (List.filter f (list_prod X (y :: Y))) =
  (length (List.filter f (List.map (λ x, (x, y)) X)) +
   length (List.filter f (list_prod X Y)))%nat.
Proof.
  induction X as [|x X IH]; [done|].
  change (list_prod (x :: X) (y :: Y))
    with (List.map (pair x) (y :: Y) ++ list_prod X (y :: Y)).
  change (list_prod (x :: X) Y) with (List.map (pair x) Y ++ list_prod X Y).
  rewrite !List.filter_app, !length_app, IH. simpl.
  destruct (f (x, y)); simpl; lia.
Qed.

(** Counting over the pairs of [X × Y] or over those of [Y × X]. *)
Lemma length_filter_prod_swap {A B} (f : A * B → bool) (X : list A) (Y : list B) :
  length (List.filter f (list_prod X Y)) =
  length (List.filter (λ p : B * A, f (p.2, p.1)) (list_prod Y X)).
Proof.
  induction X as [|x X IH].
  - by rewrite length_filter_prod_nil_r.
  - rewrite length_filter_prod_cons_r. simpl.
    rewrite List.filter_app, length_app, IH, !length_filter_map. done.
Qed.


Lemma length_filter_none {A} (f : A → bool) (l : list A) :
  (∀ x, In x l → f x = false) → length (List.filter f l) = 0%nat.
Proof.
  induction l as [|x l IH]; intros Hf; [done|]. simpl.
  rewrite (Hf x) by (by left). apply IH. intros y Hy. apply Hf. by right.
Qed.

Lemma Qle_bool_minus_swap (x y : Q) : Qle_bool 0 (x - y) = Qle_bool (y - x) 0.
Proof.
  apply eq_true_iff_eq. rewrite !Qle_bool_iff.
  destruct x as [xn xd], y as [yn yd]. unfold Qle. simpl. lia.
Qed.


Section count_pairs.
Variables (a b : ndarray Q) (R K : nat).
Hypothesis shape_a : shape a = [R; K].
Hypothesis shape_b : shape b = [R; K].

Lemma count_pairs_bounds (test : Q → bool) (k : nat) :
  0 ≤ count_pairs test a b k ≤ Z.of_nat R * Z.of_nat R.
Proof.
  unfold count_pairs. rewrite shape_a, shape_b. split; [lia|].
  rewrite <-Nat2Z.inj_mul. apply inj_le.
  etrans; [apply List.filter_length_le|]. by rewrite length_prod, !length_seq.
Qed.


Lemma count_pairs_separated (k : nat) :
  (∀ i j, (i < R)%nat → (j < R)%nat → (entry a i k < entry b j k)%Q) →
  count_pairs (λ d, Qle_bool d 0) a b k = 0.
Proof.
  intros Hsep. unfold count_pairs. rewrite shape_a, shape_b.
  rewrite length_filter_none; [done|]. intros [i j] Hij.
  apply in_prod_iff in Hij as [Hi%in_seq Hj%in_seq]. simpl.
  destruct (Qle_bool _ 0) eqn:E; [|done]. apply Qle_bool_iff in E.
  specialize (Hsep i j ltac:(lia) ltac:(lia)).
  revert E Hsep. generalize (entry a i k), (entry b j k). intros [xn xd] [yn yd].
  unfold Qle, Qlt. simpl. lia.
Qed.

Lemma bootstrap_p_value_fin (k : nat) :
  (0 < R)%nat →
  bootstrap_p_value a b k =
    Fin (inject_Z (Z.min (count_pairs (λ d, Qle_bool 0 d) a b k)
                         (count_pairs (λ d, Qle_bool d 0) a b k))
         / inject_Z (Z.of_nat R * Z.of_nat R)).
Proof.
  intros HR. unfold bootstrap_p_value, true_divide. rewrite shape_a, shape_b.
  by assert ((Z.of_nat R * Z.of_nat R =? 0) = false) as -> by nia.
Qed.

End count_pairs.

Lemma count_pairs_swap (a b : ndarray Q) (R K k : nat) :
  shape a = [R; K] → shape b = [R; K] →
  count_pairs (λ d, Qle_bool 0 d) a b k = count_pairs (λ d, Qle_bool d 0) b a k ∧
  count_pairs (λ d, Qle_bool d 0) a b k = count_pairs (λ d, Qle_bool 0 d) b a k.
Proof.
  intros Ha Hb. unfold count_pairs. rewrite Ha, Hb. split; f_equal.
  - rewrite length_filter_prod_swap. simpl. f_equal. apply List.filter_ext.
    intros [i j]. simpl. apply Qle_bool_minus_swap.
  - rewrite length_filter_prod_swap. simpl. f_equal. apply List.filter_ext.
    intros [i j]. simpl. symmetry. apply Qle_bool_minus_swap.
Qed.

Lemma Qdiv_inject_Z_bounds (m n : Z) :
  0 ≤ m ≤ n → 0 < n → (0 <= inject_Z m / inject_Z n)%Q ∧ (inject_Z m / inject_Z n <= 1)%Q.
Proof.
  intros Hm Hn. destruct n as [|n|n]; try lia.
  unfold Qdiv, Qmult, Qinv, Qle. simpl. lia.
Qed.


Lemma bootstrap_p_value_range (a b : ndarray Q) (R K k : nat) :
  shape a = [R; K] → shape b = [R; K] → (0 < R)%nat →
  ∃ q, bootstrap_p_value a b k = Fin q ∧ (0 <= q)%Q ∧ (q <= 1)%Q.
Proof.
  intros Ha Hb HR. rewrite (bootstrap_p_value_fin a b R K) by done.
  eexists; split; [done|].
  pose proof (count_pairs_bounds a b R K Ha Hb (λ d, Qle_bool 0 d) k).
  pose proof (count_pairs_bounds a b R K Ha Hb (λ d, Qle_bool d 0) k).
  apply Qdiv_inject_Z_bounds; nia.
Qed.

Lemma bootstrap_p_value_swap (a b : ndarray Q) (R K k : nat) :
  shape a = [R; K] → shape b = [R; K] →
  bootstrap_p_value a b k = bootstrap_p_value b a k.
Proof.
  intros Ha Hb. unfold bootstrap_p_value. rewrite Ha, Hb.
  destruct (count_pairs_swap a b R K k Ha Hb) as [-> ->].
  by rewrite Z.min_comm.
Qed.

(** X10.  On ensembles of equally many repetitions every value returned by
    [test_bootstrap_difference] is a number between 0 and 1. *)
Theorem test_bootstrap_difference_range (a b : ndarray Q) (R : nat) sh :
  shape a = R :: sh → shape b = R :: sh →
  well_formed a → well_formed b → (0 < R)%nat →
  ∃ p, test_bootstrap_difference a b = Ok (NdArray sh p) ∧
       Forall (λ v, ∃ q, v = Fin q ∧ (0 <= q)%Q ∧ (q <= 1)%Q) p.
Proof.
  intros Ha Hb Hwa Hwb HR.
  destruct (test_bootstrap_difference_equal_repeats a b R sh Ha Hb Hwa Hwb HR)
    as (p & Hp & Hlen & Hk).
  exists p. split; [done|]. apply Forall_lookup. intros k v Hv.
  rewrite Hk in Hv by (rewrite <-Hlen; by eapply lookup_lt_Some).
  injection Hv as <-. by eapply bootstrap_p_value_range.
Qed.

Lemma test_bootstrap_difference_range_witness :
  ∃ p, test_bootstrap_difference square_a square_b = Ok (NdArray [2%nat] p) ∧
       Forall (λ v, ∃ q, v = Fin q ∧ (0 <= q)%Q ∧ (q <= 1)%Q) p.
Proof.
  apply (test_bootstrap_difference_range square_a square_b 2 [2%nat]);
    (done || lia).
Defined.

(** X11.  On ensembles of equally many repetitions and one trailing shape
    [test_bootstrap_difference] is symmetric: exchanging the two ensembles
    gives the same array. *)
Theorem test_bootstrap_difference_symmetric (a b : ndarray Q) (R : nat) sh :
  shape a = R :: sh → shape b = R :: sh →
  well_formed a → well_formed b → (0 < R)%nat →
  test_bootstrap_difference a b = test_bootstrap_difference b a.
Proof.
  intros Ha Hb Hwa Hwb HR.
  destruct (test_bootstrap_difference_equal_repeats a b R sh Ha Hb Hwa Hwb HR)
    as (p & -> & Hlen & Hk).
  destruct (test_bootstrap_difference_equal_repeats b a R sh Hb Ha Hwb Hwa HR)
    as (p' & -> & Hlen' & Hk').
  do 2 f_equal. apply list_eq_same_length with (foldr Nat.mul 1%nat sh); try done.
  intros k v v' Hlt Hv Hv'. rewrite Hk in Hv by done. rewrite Hk' in Hv' by done.
  rewrite (bootstrap_p_value_swap _ _ R (foldr Nat.mul 1%nat sh)) in Hv by done.
  congruence.
Qed.

Lemma test_bootstrap_difference_symmetric_witness :
  test_bootstrap_difference square_a square_b =
  test_bootstrap_difference square_b square_a.
Proof.
  apply (test_bootstrap_difference_symmetric square_a square_b 2 [2%nat]);
    (done || lia).
Defined.



(** X13.  Where the two ensembles are separated at a coordinate, every
    repetition of [b] lying strictly above every repetition of [a], the
    value of [test_bootstrap_difference] at that coordinate is 0. *)
Theorem test_bootstrap_difference_separated (a b : ndarray Q) (R : nat) sh (k : nat) :
  shape a = R :: sh → shape b = R :: sh →
  well_formed a → well_formed b → (0 < R)%nat →
  let K := foldr Nat.mul 1%nat sh in
  let a2 := NdArray [R; K] (flat a) in
  let b2 := NdArray [R; K] (flat b) in
  (k < K)%nat →
  (∀ i j, (i < R)%nat → (j < R)%nat → (entry a2 i k < entry b2 j k)%Q) →
  ∃ p q, test_bootstrap_difference a b = Ok (NdArray sh p) ∧
         p !! k = Some (Fin q) ∧ (q == 0)%Q.
Proof.
  intros Ha Hb Hwa Hwb HR K a2 b2 Hlt Hsep.
  destruct (test_bootstrap_difference_equal_repeats a b R sh Ha Hb Hwa Hwb HR)
    as (p & Hp & Hlen & Hk).
  exists p. eexists. split; [done|]. rewrite Hk by done. fold K a2 b2.
  rewrite (bootstrap_p_value_fin a2 b2 R K) by done. split; [done|].
  rewrite (count_pairs_separated a2 b2 R K eq_refl eq_refl k Hsep).
  pose proof (count_pairs_bounds a2 b2 R K eq_refl eq_refl (λ d, Qle_bool 0 d) k).
  rewrite Z.min_r by lia. unfold Qdiv. by rewrite Qmult_0_l.
Qed.

Lemma test_bootstrap_difference_separated_witness :
  ∃ p q, test_bootstrap_difference low_a high_b = Ok (NdArray [1%nat] p) ∧
         p !! 0%nat = Some (Fin q) ∧ (q == 0)%Q.
Proof.
  apply (test_bootstrap_difference_separated low_a high_b 3 [1%nat] 0);
    try (done || (simpl; lia)).
  intros i j Hi Hj.
  destruct i as [|[|[|i]]]; [| | |lia];
    (destruct j as [|[|[|j]]]; [| | |lia]); reflexivity.
Defined.

(** ** [test_rank_difference_a] *)







(** ** More on the estimators *)


Section estimator_more.
Context `{Collaborators}.
Implicit Types (names : measure_names) (nfft : Z) (w : world) (data : dataset).

Lemma for_each_M_app {A S} (l1 l2 : list A) (f : A → S → M world S) s w :
  for_each (l1 ++ l2) f s w =
    match for_each l1 f s w with
    | Ok (s1, w1) => for_each l2 f s1 w1
    | Err e => Err e
    end.
Proof.
  revert s w. induction l1 as [|a l1 IH]; intros s w; [done|]. simpl.
  destruct (f a s w) as [[s' w']|]; [|done]. apply IH.
Qed.

Lemma fit_and_append_err names nfft d out w e :
  var_fit d w = Err e ∨
  (∃ w1, var_fit d w = Ok ((), w1) ∧
         connectivity names (var_coef w1) (var_rescov w1) nfft = Err e) →
  fit_and_append names nfft d out w = Err e.
Proof.
  unfold fit_and_append, read, lift. simpl. intros [->|(w1 & -> & Hc)]; [done|].
  simpl. by rewrite Hc.
Qed.


Lemma jackknife_connectivity_err names data nfft (leaveout b : Z) w cs w1 e :
  let trials := atleast_3d data in
  let num_blocks := Z.of_nat (length trials) / leaveout in
  let fitted b := Data3 (trials_outside_block trials leaveout b) in
  1 ≤ leaveout → 0 ≤ b < num_blocks →
  estimates names nfft (fitted <$> range b) w cs w1 →
  var_fit (fitted b) w1 = Err e ∨
  (∃ w2, var_fit (fitted b) w1 = Ok ((), w2) ∧
         connectivity names (var_coef w2) (var_rescov w2) nfft = Err e) →
  jackknife_connectivity names data nfft (inject_Z leaveout) w = Err e.
Proof.
  intros trials num_blocks fitted Hl Hb Hest Herr.
  rewrite jackknife_connectivity_int by done. fold trials. fold num_blocks. simpl.
  set (body := λ b output, fit_and_append names nfft (fitted b) output).
  rewrite (for_each_ext _ _ body).
  2:{ intros b' out w0 Hb'%elem_of_seqZ. simpl.
      rewrite take_trials_jackknife; [done|lia|done|].
      unfold num_blocks in Hb'.
      pose proof (Z.mul_div_le (Z.of_nat (length trials)) leaveout). nia. }
  unfold range. replace num_blocks with (b + (num_blocks - b)) by lia.
  rewrite seqZ_app by lia. rewrite for_each_M_app.
  assert (for_each (T := M world) (seqZ 0 b) body [] w = Ok (cs, w1)) as ->.
  { unfold body. apply for_each_estimates. by exists cs. }
  simpl. rewrite seqZ_cons by lia. simpl.
  unfold body at 1. by rewrite (fit_and_append_err _ _ _ _ _ e).
Qed.

Lemma bootstrap_connectivity_samples_ok names data nfft repeats num_samples sh w :
  let trials := atleast_3d data in
  let t := Z.of_nat (length trials) in
  let n := default t num_samples in
  (∀ d w, bootstrap_sample trials n d → ∃ w', var_fit d w = Ok ((), w')) →
  (∀ w, ∃ c, connectivity names (var_coef w) (var_rescov w) nfft = Ok c ∧
             conn_ok sh names c) →
  (∀ w, ∃ mask w', random_integers 0 (t - 1) n w = Ok (mask, w')) →
  ∃ e w', bootstrap_connectivity names data nfft repeats num_samples w = Ok (e, w') ∧
          has_leading_dim names e (Z.max 0 repeats).
Proof.
  intros trials t n Hfit Hconn Hrand. rewrite <-length_range.
  unfold bootstrap_connectivity. fold trials. fold t. fold n.
  apply (estimator_ok _ _ _ sh). intros r out w0 _.
  destruct (Hrand w0) as (mask & w1 & Hmask).
  destruct (random_integers_spec _ _ _ _ _ _ Hmask) as [Hlen Hrange].
  assert (Hd : take_trials trials mask =
               Ok (Data3 ((λ i, default ([] : trial) (trials !! Z.to_nat i)) <$> mask))).
  { unfold take_trials. rewrite (comprehension_ok _
      (λ i, default ([] : trial) (trials !! Z.to_nat i))); [done|].
    intros i Hi. rewrite Forall_forall in Hrange.
    destruct (py_index_ok trials i) as (x & -> & ->); [|done].
    specialize (Hrange i Hi). fold t. lia. }
  destruct (Hfit (Data3 ((λ i, default ([] : trial) (trials !! Z.to_nat i)) <$> mask)) w1)
    as [w2 Hw2].
  { eexists. split_and!; [done|by rewrite length_fmap|].
    intros x (i & -> & Hi)%list_elem_of_fmap. rewrite Forall_forall in Hrange.
    specialize (Hrange i Hi).
    destruct (lookup_lt_is_Some_2 trials (Z.to_nat i)) as [y Hy]; [fold t; lia|].
    rewrite Hy. simpl. by eapply list_elem_of_lookup_2. }
  destruct (Hconn w2) as (c & Hc & Hok).
  exists c, w2. split; [|done]. simpl. rewrite Hmask. unfold lift at 1. rewrite Hd.
  apply fit_and_append_inv. eauto.
Qed.

Lemma surrogate_connectivity_surrogates_ok names data nfft repeats sh w :
  (∀ w, ∃ d w', randomize_phase data w = Ok (d, w')) →
  (∀ w d w', randomize_phase data w = Ok (d, w') → ∃ w'', var_fit d w' = Ok ((), w'')) →
  (∀ w, ∃ c, connectivity names (var_coef w) (var_rescov w) nfft = Ok c ∧
             conn_ok sh names c) →
  ∃ e w', surrogate_connectivity names data nfft repeats w = Ok (e, w') ∧
          has_leading_dim names e (Z.max 0 repeats).
Proof.
  intros Hrand Hfit Hconn. rewrite <-length_range. unfold surrogate_connectivity.
  apply (estimator_ok _ _ _ sh). intros r out w0 _.
  destruct (Hrand w0) as (d & w1 & Hd).
  destruct (Hfit w0 d w1 Hd) as [w2 Hw2].
  destruct (Hconn w2) as (c & Hc & Hok).
  exists c, w2. split; [|done]. simpl. rewrite Hd.
  apply fit_and_append_inv. eauto.
Qed.

End estimator_more.

(** A model object whose [fit] insists on five trials. *)
Definition picky_collaborators : Collaborators := {|
  world := nat * nat;
  coef := nat;
  rescov := ();
  randomize_phase d := λ w, Ok (d, (S w.1, w.2));
  var_fit d := λ w, if decide (length (atleast_3d d) = 5%nat)
                    then Ok ((), (w.1, 5%nat)) else Err ValueError;
  var_coef w := w.2;
  var_rescov w := ();
  connectivity := toy_connectivity;
  random_integers := toy_random_integers;
  random_integers_spec := toy_random_integers_spec;
|}.



(** X16.  Every trial below [floor(T / leaveout)·leaveout], and so every
    trial when [leaveout] divides the number [T] of trials, is left out of
    exactly one jackknife estimate. *)
Theorem jackknife_mask_leaves_out_once (t leaveout i : Z) :
  let num_blocks := t / leaveout in
  1 ≤ leaveout → 0 ≤ i < t →
  i < num_blocks * leaveout ∨ t `mod` leaveout = 0 →
  ∃ b, 0 ≤ b < num_blocks ∧
       i ∉ jackknife_mask t (inject_Z leaveout) b ∧
       ∀ b', i ∉ jackknife_mask t (inject_Z leaveout) b' → b' = b.
Proof.
  intros num_blocks Hl Hi Hcov.
  assert (Hlt : i < num_blocks * leaveout).
  { destruct Hcov as [|Hmod]; [done|].
    pose proof (Z.div_mod t leaveout ltac:(lia)). unfold num_blocks. nia. }
  pose proof (Z.mul_div_le i leaveout ltac:(lia)) as Hlo.
  pose proof (Z.mul_succ_div_gt i leaveout ltac:(lia)) as Hhi.
  exists (i / leaveout). split_and!.
  - apply Z.div_pos; lia.
  - apply Z.div_lt_upper_bound; lia.
  - rewrite elem_of_jackknife_mask. lia.
  - intros b'. rewrite elem_of_jackknife_mask. intros Hb'.
    assert (b' * leaveout ≤ i < (b' + 1) * leaveout) by lia. nia.
Qed.

Lemma jackknife_mask_leaves_out_once_witness :
  ∃ b, 0 ≤ b < 6 / 2 ∧
       3 ∉ jackknife_mask 6 (inject_Z 2) b ∧
       ∀ b', 3 ∉ jackknife_mask 6 (inject_Z 2) b' → b' = b.
Proof.
  apply (jackknife_mask_leaves_out_once 6 2 3); [lia|lia|by right].
Defined.

(** X17.  [jackknife_connectivity] passes on what its collaborators raise:
    when the fits of the blocks before [b] succeed and then [var.fit] or
    [connectivity] raises on the trials outside block [b], the call raises
    that exception and returns none of the earlier estimates. *)
Theorem jackknife_connectivity_propagates `{Collaborators}
    (names : measure_names) (data : dataset) (nfft leaveout b : Z)
    (w : world) (cs : list conn_result) (w1 : world) (e : exception) :
  let trials := atleast_3d data in
  let num_blocks := Z.of_nat (length trials) / leaveout in
  let fitted b := Data3 (trials_outside_block trials leaveout b) in
  1 ≤ leaveout → 0 ≤ b < num_blocks →
  estimates names nfft (fitted <$> range b) w cs w1 →
  var_fit (fitted b) w1 = Err e ∨
  (∃ w2, var_fit (fitted b) w1 = Ok ((), w2) ∧
         connectivity names (var_coef w2) (var_rescov w2) nfft = Err e) →
  jackknife_connectivity names data nfft (inject_Z leaveout) w = Err e.
Proof. apply jackknife_connectivity_err. Qed.

Lemma jackknife_connectivity_propagates_witness :
  @jackknife_connectivity picky_collaborators (Name "ffDTF") toy_data 512 (inject_Z 2)
    toy_start = Err ValueError.
Proof.
  apply (@jackknife_connectivity_propagates picky_collaborators
           (Name "ffDTF") toy_data 512 2 0 toy_start [] toy_start ValueError).
  - lia.
  - by vm_compute.
  - constructor.
  - by left.
Defined.

(** X18.  [bootstrap_connectivity] fits the model only on samples of
    [num_samples] trials (by default as many as the data has), each one a
    trial of the data: for the call to succeed it is enough that [var.fit]
    succeeds on such samples. *)
Theorem bootstrap_connectivity_fits_samples `{Collaborators}
    (names : measure_names) (data : dataset) (nfft repeats : Z)
    (num_samples : option Z) (sh : string → list nat) (w : world) :
  let trials := atleast_3d data in
  let t := Z.of_nat (length trials) in
  let n := default t num_samples in
  (∀ d w, bootstrap_sample trials n d → ∃ w', var_fit d w = Ok ((), w')) →
  (∀ w, ∃ c, connectivity names (var_coef w) (var_rescov w) nfft = Ok c ∧
             conn_ok sh names c) →
  (∀ w, ∃ mask w', random_integers 0 (t - 1) n w = Ok (mask, w')) →
  ∃ e w', bootstrap_connectivity names data nfft repeats num_samples w = Ok (e, w') ∧
          has_leading_dim names e (Z.max 0 repeats).
Proof. apply bootstrap_connectivity_samples_ok. Qed.

Lemma bootstrap_connectivity_fits_samples_witness :
  ∃ e w', @bootstrap_connectivity picky_collaborators (Name "ffDTF") toy_data 512 3 None
            toy_start = Ok (e, w') ∧
          has_leading_dim (Name "ffDTF") e (Z.max 0 3).
Proof.
  apply (@bootstrap_connectivity_fits_samples picky_collaborators
           (Name "ffDTF") toy_data 512 3 None (λ _, [1%nat]) toy_start).
  - intros d w (trials & -> & Hlen & _). simpl. rewrite decide_True by done.
    by eexists.
  - intros w. by eexists.
  - intros w. by eexists _, _.
Defined.

(** X19.  [surrogate_connectivity] fits the model only on what
    [randomize_phase] returned for the data it was given, never on the data
    themselves or on an earlier surrogate: for the call to succeed it is
    enough that [var.fit] succeeds on those surrogates. *)
Theorem surrogate_connectivity_fits_surrogates `{Collaborators}
    (names : measure_names) (data : dataset) (nfft repeats : Z)
    (sh : string → list nat) (w : world) :
  (∀ w, ∃ d w', randomize_phase data w = Ok (d, w')) →
  (∀ w d w', randomize_phase data w = Ok (d, w') → ∃ w'', var_fit d w' = Ok ((), w'')) →
  (∀ w, ∃ c, connectivity names (var_coef w) (var_rescov w) nfft = Ok c ∧
             conn_ok sh names c) →
  ∃ e w', surrogate_connectivity names data nfft repeats w = Ok (e, w') ∧
          has_leading_dim names e (Z.max 0 repeats).
Proof. apply surrogate_connectivity_surrogates_ok. Qed.

Lemma surrogate_connectivity_fits_surrogates_witness :
  ∃ e w', @surrogate_connectivity picky_collaborators (Name "ffDTF") toy_data 512 3
            toy_start = Ok (e, w') ∧
          has_leading_dim (Name "ffDTF") e (Z.max 0 3).
Proof.
  apply (@surrogate_connectivity_fits_surrogates picky_collaborators
           (Name "ffDTF") toy_data 512 3 (λ _, [1%nat]) toy_start).
  - intros w. by eexists _, _.
  - intros w d w' [= <- <-]. by eexists.
  - intros w. by eexists.
Defined.

(** ** More on [convert_output_] *)

Lemma comprehension_err {A B} (f : A → result B) (l : list A) a e0 :
  a ∈ l → f a = Err e0 → ∃ e, comprehension f l = Err e.
Proof.
  intros Ha Hf. induction l as [|x l IH]; [by apply elem_of_nil in Ha|]. simpl.
  destruct (f x) as [y|e] eqn:Hx; [|by eexists]. simpl.
  apply elem_of_cons in Ha as [->|Ha]; [congruence|].
  destruct (IH Ha) as [e ->]. by eexists.
Qed.

Lemma dict_comprehension_err {V} (keys : list string) (value : string → result V)
    (d : gmap string V) k e0 :
  k ∈ keys → value k = Err e0 → ∃ e, dict_comprehension keys value d = Err e.
Proof.
  intros Hk Hv. revert d. induction keys as [|x keys IH]; intros d;
    [by apply elem_of_nil in Hk|]. simpl.
  destruct (value x) as [y|e] eqn:Hx; [|by eexists]. simpl.
  apply elem_of_cons in Hk as [->|Hk]; [congruence|]. by apply IH.
Qed.

(** X20.  For a list of names [convert_output_] never drops a name or a
    repetition: when the result of some repetition cannot be indexed by
    some requested name (the name is missing, or the result is an array),
    it raises. *)
Theorem convert_output__missing (output : list conn_result) (ms : list string)
    (m : string) (r : nat) (c : conn_result) (e0 : exception) :
  m ∈ ms → output !! r = Some c → getitem c m = Err e0 →
  ∃ e, convert_output_ output (Names ms) = Err e.
Proof.
  intros Hm Hr Hc.
  assert (∃ e1, stack_measure output (length output) m = Err e1) as [e1 He1].
  { unfold stack_measure.
    destruct (comprehension_err
                (λ r : nat, match output !! r with
                            | Some c => getitem c m
                            | None => Err IndexError
                            end) (seq 0 (length output)) r e0) as [e ->].
    - apply elem_of_seq. apply lookup_lt_Some in Hr. lia.
    - by rewrite Hr.
    - by eexists. }
  unfold convert_output_.
  destruct (dict_comprehension_err ms (stack_measure output (length output)) ∅ m e1 Hm He1)
    as [e ->].
  by eexists.
Qed.

Lemma convert_output__missing_witness :
  ∃ e, convert_output_ [CDict (toy_dict 0); CDict (<["PDC" := toy_measure 1]> ∅)]
         (Names ["PDC"; "ffDTF"]) = Err e.
Proof.
  apply (convert_output__missing
           [CDict (toy_dict 0); CDict (<["PDC" := toy_measure 1]> ∅)]
           ["PDC"; "ffDTF"] "ffDTF" 1 (CDict (<["PDC" := toy_measure 1]> ∅)) KeyError).
  - do 2 constructor.
  - reflexivity.
  - reflexivity.
Defined.
